(** * Variable rolling-window bounds ([pandas/_libs/window/indexers.pyx])

    A shallow embedding of [calculate_variable_window_bounds] and the
    properties of its sweep, validity filter and boundary adjustment. *)

From Stdlib Require Import ZArith String.
From stdpp Require Import base option list sorting.

Open Scope Z_scope.

(** ** Machine integers

    Every [int64_t] of the source is a [Z]; the result of each arithmetic
    operation is reduced into the signed 64-bit range. *)
Module Int64.

Definition min_signed : Z := - 2 ^ 63.
Definition max_signed : Z := 2 ^ 63 - 1.

Definition wrap (z : Z) : Z := (z + 2 ^ 63) mod 2 ^ 64 - 2 ^ 63.

Definition fits (z : Z) : bool := (min_signed <=? z) && (z <=? max_signed).

Definition add (x y : Z) : Z := wrap (x + y).
Definition sub (x y : Z) : Z := wrap (x - y).
Definition mul (x y : Z) : Z := wrap (x * y).

End Int64.

(** ** Outcomes of a call

    [Raise] is a Python exception leaving the function; [OutOfFuel] is not a
    behaviour of the program: it marks a run of the model whose loop budget
    was too small (shown below never to happen). *)
Inductive exn : Set := OverflowError | ValueError.

Inductive result (A : Type) : Type :=
| Ok (a : A)
| Raise (e : exn)
| OutOfFuel.
Arguments Ok {A} a.
Arguments Raise {A} e.
Arguments OutOfFuel {A}.

Definition result_bind {A B : Type} (f : A → result B) (r : result A) : result B :=
  match r with
  | Ok a => f a
  | Raise e => Raise e
  | OutOfFuel => OutOfFuel
  end.

#[global] Instance result_mbind : MBind result := @result_bind.
#[global] Instance result_mret : MRet result := @Ok.

(** Conversion of a Python integer to a C [int64_t] (typed arguments and the
    two assignments to [min_periods] and [step_size]). *)
Definition as_int64 (v : Z) : result Z :=
  if Int64.fits v then Ok v else Raise OverflowError.

(** ** Unchecked memory

    The module is compiled with [boundscheck=False, wraparound=False], and
    [np.empty] does not initialise its cells.  What such a read yields is not
    fixed by the program: it is a parameter of every run. *)
Record memory : Type := {
  oob : Z → Z;        (* the word found at an offset outside the index buffer *)
  uninit : nat → Z    (* the word found in cell [k] of a fresh array *)
}.

(** [index[i]] on the [const int64_t[:]] view.  A read outside the buffer is
    undefined in C (it may as well end the process); here it yields a stray
    word, so that what is said of a call is meant for an index that holds
    [num_values] values. *)
Definition getitem (m : memory) (index : list Z) (i : Z) : Z :=
  if 0 <=? i
  then default (Int64.wrap (oob m i)) (index !! Z.to_nat i)
  else Int64.wrap (oob m i).

(** [np.empty(n, dtype='int64')]; running out of memory is not modelled. *)
Definition np_empty (m : memory) (n : Z) : result (list Z) :=
  if n <? 0 then Raise ValueError
  else Ok ((λ k, Int64.wrap (uninit m k)) <$> seq 0 (Z.to_nat n)).

(** [a.fill(v)]. *)
Definition fill (a : list Z) (v : Z) : list Z := replicate (length a) v.

(** Element-wise numpy operations on int64 and boolean arrays. *)
Definition np_ge_scalar (a : list Z) (v : Z) : list bool := (λ x, v <=? x) <$> a.
Definition np_le (a b : list Z) : list bool := zip_with Z.leb a b.
Definition np_and (a b : list bool) : list bool := zip_with andb a b.
Definition np_sub (a b : list Z) : list Z := zip_with Int64.sub a b.
Definition np_add_scalar (a : list Z) (v : Z) : list Z := (λ x, Int64.add x v) <$> a.
Definition np_sub_scalar (a : list Z) (v : Z) : list Z := (λ x, Int64.sub x v) <$> a.

(** [a[mask]] for a boolean [mask]. *)
Fixpoint np_mask (a : list Z) (mask : list bool) : list Z :=
  match a, mask with
  | x :: a', b :: mask' => if b then x :: np_mask a' mask' else np_mask a' mask'
  | _, _ => []
  end.

(** [x in l] for strings. *)
Definition py_in (x : string) (l : list string) : bool := existsb (String.eqb x) l.

(** Lines 62-69: the two flags derived from [closed]. *)
Definition closed_or_default (closed : option string) : string := default "left"%string closed.

Definition right_open_of (closed : option string) : bool :=
  negb (py_in (closed_or_default closed) ["right"%string; "both"%string]).

Definition left_open_of (closed : option string) : bool :=
  negb (py_in (closed_or_default closed) ["left"%string; "both"%string]).

(** Lines 71-73: direction of the index. *)
Definition direction (m : memory) (index : list Z) (num_values : Z) : Z :=
  if getitem m index (Int64.sub num_values 1) <? getitem m index 0 then -1 else 1.

(** ** The sweep (lines 90-123) *)

Record sweep_state : Type := {
  window_i : Z;
  next_index_si : Z;
  next_index_ei : Z;
  start : list Z;
  end_ : list Z
}.

(** [for index_i in range(.., num_values): if outside(index_i): x = index_i - 1; break]
    with [x] preset to [otherwise]; [trips] is the number of values the range
    still holds. *)
Fixpoint last_inside (outside : Z → bool) (trips : nat) (index_i otherwise : Z) : Z :=
  match trips with
  | O => otherwise
  | S trips' =>
      if outside index_i then Int64.sub index_i 1
      else last_inside outside trips' (Int64.add index_i 1) otherwise
  end.

Definition for_range (outside : Z → bool) (lo hi otherwise : Z) : Z :=
  last_inside outside (Z.to_nat (hi - lo)) lo otherwise.

Section Sweep.

Variable m : memory.
Variable index : list Z.
Variables num_values window_size step_size idx_scalar : Z.

Definition index_window_max_of (index_si : Z) : Z :=
  Int64.add (getitem m index index_si) (Int64.mul idx_scalar (Int64.sub window_size 1)).

Definition index_step_max_of (index_si : Z) : Z :=
  Int64.add (getitem m index index_si) (Int64.mul idx_scalar (Int64.sub step_size 1)).

(** [idx_scalar*index[index_i] > idx_scalar*bound] *)
Definition outside (bound index_i : Z) : bool :=
  Int64.mul idx_scalar (getitem m index index_i) >? Int64.mul idx_scalar bound.

Definition index_step_i_of (index_si : Z) : Z :=
  for_range (outside (index_step_max_of index_si))
    (Int64.add index_si 1) num_values (Int64.sub num_values 1).

Definition index_window_i_of (index_si next_ei : Z) : Z :=
  for_range (outside (index_window_max_of index_si))
    (Int64.add next_ei 1) num_values (Int64.sub num_values 1).

(** One pass through the body of the [while]. *)
Definition sweep_body (st : sweep_state) : sweep_state :=
  let index_si := next_index_si st in
  let start' := <[Z.to_nat (window_i st) := index_si]> (start st) in
  let index_step_i := index_step_i_of index_si in
  let index_window_i := index_window_i_of index_si (next_index_ei st) in
  let next_si := Int64.add index_step_i 1 in
  let next_ei :=
    if next_si >? Int64.add index_window_i 1 then next_si
    else Int64.add index_window_i 1 in
  {| window_i := Int64.add (window_i st) 1;
     next_index_si := next_si;
     next_index_ei := next_ei;
     start := start';
     end_ := <[Z.to_nat (window_i st) := index_window_i]> (end_ st) |}.

(** [while next_index_ei < num_values: body] *)
Fixpoint sweep (fuel : nat) (st : sweep_state) : result sweep_state :=
  match fuel with
  | O => if next_index_ei st <? num_values then OutOfFuel else Ok st
  | S fuel' =>
      if next_index_ei st <? num_values then sweep fuel' (sweep_body st) else Ok st
  end.

Definition sweep_init (start0 end0 : list Z) : sweep_state :=
  {| window_i := 0; next_index_si := 0; next_index_ei := 0;
     start := start0; end_ := end0 |}.

End Sweep.

(** ** Validity filter and boundary adjustment (lines 125-138) *)
Definition select_windows (start_arr end_arr : list Z) (min_periods : Z)
    (left_open right_open : bool) : list Z * list Z :=
  let valid_idx := np_and (np_ge_scalar start_arr 0) (np_le start_arr end_arr) in
  (* [min_periods] is a C integer here, so [min_periods is not None] holds *)
  let valid_idx :=
    np_and valid_idx
      (np_ge_scalar (np_add_scalar (np_sub end_arr start_arr) 1) min_periods) in
  let start_arr := if left_open then np_sub_scalar start_arr 1 else start_arr in
  let end_arr := if right_open then np_add_scalar end_arr 1 else end_arr in
  (np_mask start_arr valid_idx, np_mask end_arr valid_idx).

(** ** The function *)
Definition calculate_variable_window_bounds (m : memory)
    (num_values window_size : Z) (step_size_obj min_periods_obj : option Z)
    (center : option bool) (closed : option string) (index : list Z)
  : result (list Z * list Z) :=
  num_values ← as_int64 num_values;
  window_size ← as_int64 window_size;
  let right_open := right_open_of closed in
  let left_open := left_open_of closed in
  let idx_scalar := direction m index num_values in
  min_periods ← as_int64 (default 0 min_periods_obj);
  step_size ← as_int64 (default 1 step_size_obj);
  start_arr ← np_empty m num_values;
  let start_arr := fill start_arr (-1) in
  end_arr ← np_empty m num_values;
  if num_values <? 1 then Ok (start_arr, end_arr)
  else
    st ← sweep m index num_values window_size step_size idx_scalar
           (Z.to_nat num_values) (sweep_init start_arr end_arr);
    Ok (select_windows (start st) (end_ st) min_periods left_open right_open).

(** ** Vocabulary of the statements *)

(** The boundary adjustment of one surviving bound. *)
Definition adjust_start (left_open : bool) (s : Z) : Z := if left_open then s - 1 else s.
Definition adjust_end (right_open : bool) (e : Z) : Z := if right_open then e + 1 else e.

(** Validity of a slot [(start, end)], on unbounded integers. *)
Definition slot_valid (min_periods : Z) (slot : Z * Z) : bool :=
  (0 <=? slot.1) && (slot.1 <=? slot.2) && (min_periods <=? slot.2 - slot.1 + 1).

(** The integer arguments are representable as [int64_t]. *)
Definition well_typed (num_values window_size : Z) (step_size_obj min_periods_obj : option Z)
  : Prop :=
  Int64.fits num_values = true ∧ Int64.fits window_size = true ∧
  Int64.fits (default 1 step_size_obj) = true ∧
  Int64.fits (default 0 min_periods_obj) = true.

(** The arrays as they are when the sweep starts. *)
Definition start0 (num_values : Z) : list Z := replicate (Z.to_nat num_values) (-1).
Definition end0 (m : memory) (num_values : Z) : list Z :=
  (λ k, Int64.wrap (uninit m k)) <$> seq 0 (Z.to_nat num_values).

(** The state in which the [while] loop is left. *)
Definition swept (m : memory) (num_values window_size : Z) (step_size_obj : option Z)
    (index : list Z) : result sweep_state :=
  sweep m index num_values window_size (default 1 step_size_obj)
    (direction m index num_values) (Z.to_nat num_values)
    (sweep_init (start0 num_values) (end0 m num_values)).

(** The slots written by the sweep: the first [window_i] cells of both arrays. *)
Definition written (st : sweep_state) : list (Z * Z) :=
  zip (take (Z.to_nat (window_i st)) (start st)) (take (Z.to_nat (window_i st)) (end_ st)).

(** The same, of the outcome of the loop. *)
Definition written_by (r : result sweep_state) : result (list (Z * Z)) :=
  st ← r; Ok (written st).

(** States the loop passes through, each at its test. *)
Inductive reachable (m : memory) (index : list Z)
    (num_values window_size step_size idx_scalar : Z) (init : sweep_state)
  : sweep_state → Prop :=
| reachable_init : reachable m index num_values window_size step_size idx_scalar init init
| reachable_body st :
    reachable m index num_values window_size step_size idx_scalar init st →
    next_index_ei st < num_values →
    reachable m index num_values window_size step_size idx_scalar init
      (sweep_body m index num_values window_size step_size idx_scalar st).

(** What holds of the state at every test of the loop. *)
Record sweep_inv (N : Z) (e0 : list Z) (st : sweep_state) : Prop := {
  inv_window_i : 0 ≤ window_i st ≤ next_index_si st;
  inv_si_ei : next_index_si st ≤ next_index_ei st;
  inv_ei : next_index_ei st ≤ N;
  inv_length_start : length (start st) = Z.to_nat N;
  inv_length_end : length (end_ st) = Z.to_nat N;
  inv_unwritten :
    drop (Z.to_nat (window_i st)) (start st)
    = replicate (Z.to_nat N - Z.to_nat (window_i st))%nat (-1);
  inv_end_rest :
    drop (Z.to_nat (window_i st)) (end_ st) = drop (Z.to_nat (window_i st)) e0;
  inv_written_start :
    Forall (λ s, 0 ≤ s < N) (take (Z.to_nat (window_i st)) (start st));
  inv_written_end :
    Forall (λ e, 0 ≤ e < N) (take (Z.to_nat (window_i st)) (end_ st))
}.

(** Two states that differ at most in the cells of [end] not yet written. *)
Definition agree_written (st1 st2 : sweep_state) : Prop :=
  window_i st1 = window_i st2 ∧
  next_index_si st1 = next_index_si st2 ∧
  next_index_ei st1 = next_index_ei st2 ∧
  start st1 = start st2 ∧
  take (Z.to_nat (window_i st1)) (end_ st1) = take (Z.to_nat (window_i st1)) (end_ st2).

(** The index is non-decreasing. *)
Fixpoint is_ascending (l : list Z) : bool :=
  match l with
  | x :: (y :: _) as l' => (x <=? y) && is_ascending l'
  | _ => true
  end.

(** Values far enough from the ends of the 64-bit range for the sums of the
    sweep not to wrap. *)
Definition moderate (z : Z) : bool := (- 2 ^ 61 <=? z) && (z <=? 2 ^ 61).

(** An [int64_t] whose opposite is one too. *)
Definition negatable (z : Z) : bool :=
  (Int64.min_signed <? z) && (z <=? Int64.max_signed).

(** The image of the index under the reflection [x ↦ c - x]. *)
Definition mirrored (c : Z) (index : list Z) : list Z := (λ x, c - x) <$> index.

(** A machine whose stray words are all zero, for the concrete runs. *)
Definition zero_memory : memory := {| oob := λ _, 0; uninit := λ _, 0 |}.

(** Every index value at the positions of the window [slot] lies within
    [window_size] index-units of the value at its first position, in the
    direction [idx_scalar]. *)
Definition contained (index : list Z) (idx_scalar window_size : Z) (slot : Z * Z) : bool :=
  forallb
    (λ p, idx_scalar * (default 0 (index !! Z.to_nat p)
                        - default 0 (index !! Z.to_nat slot.1)) <=? window_size)
    (seqZ slot.1 (slot.2 - slot.1 + 1)).

(** One slot lies before another: it starts earlier and it ends earlier. *)
Definition slot_lt (a b : Z * Z) : Prop := a.1 < b.1 ∧ a.2 < b.2.

(** What holds of the slots written so far at every test of the loop: they
    are in order, none is empty, and the two cursors are past all of them. *)
Definition written_inv (st : sweep_state) : Prop :=
  StronglySorted slot_lt (written st) ∧
  Forall (λ slot, 0 ≤ slot.1 ∧ slot.1 ≤ slot.2 ∧
                  slot.1 < next_index_si st ∧ slot.2 < next_index_ei st)
    (written st) ∧
  (next_index_ei st = 0 ∨ ∃ e rest, written st = (0, e) :: rest).

(** One slot ends before the other starts. *)
Definition apart (a b : Z * Z) : Prop := a.2 < b.1.

(** On an ascending index, the window [slot] holds, after its first position,
    exactly the run of positions whose value is at most [window_size - 1]
    units above the value at its start. *)
Definition exact_window (m : memory) (index : list Z) (N window_size : Z)
    (slot : Z * Z) : Prop :=
  (∀ p, slot.1 < p ≤ slot.2 →
     getitem m index p ≤ getitem m index slot.1 + (window_size - 1)) ∧
  (slot.2 + 1 < N →
     getitem m index slot.1 + (window_size - 1) < getitem m index (slot.2 + 1)).

(** The index is increasing. *)
Fixpoint is_strictly_ascending (l : list Z) : bool :=
  match l with
  | x :: (y :: _) as l' => (x <? y) && is_strictly_ascending l'
  | _ => true
  end.

(** The arguments that the contract of the function excludes. *)
Definition invalid_arguments (closed : option string) (window_size : Z)
    (step_size_obj min_periods_obj : option Z) : Prop :=
  (∃ token, closed = Some token ∧
     token ∉ ["left"%string; "right"%string; "both"%string; "neither"%string]) ∨
  default 1 step_size_obj ≤ 0 ∨ window_size < 0 ∨ default 0 min_periods_obj < 0.

(** ** Machine arithmetic without overflow *)

Lemma wrap_small z :
  Int64.min_signed ≤ z ≤ Int64.max_signed → Int64.wrap z = z.
Proof.
  unfold Int64.wrap, Int64.min_signed, Int64.max_signed. intros Hz.
  rewrite Z.mod_small; lia.
Qed.

Lemma wrap_range z : Int64.min_signed ≤ Int64.wrap z ≤ Int64.max_signed.
Proof.
  unfold Int64.wrap, Int64.min_signed, Int64.max_signed.
  pose proof (Z.mod_pos_bound (z + 2 ^ 63) (2 ^ 64)). lia.
Qed.

Lemma fits_spec z :
  Int64.fits z = true ↔ Int64.min_signed ≤ z ≤ Int64.max_signed.
Proof. unfold Int64.fits. rewrite andb_true_iff, !Z.leb_le. tauto. Qed.

Lemma max_signed_pos : 0 < Int64.max_signed.
Proof. reflexivity. Qed.

Lemma min_signed_neg : Int64.min_signed < 0.
Proof. reflexivity. Qed.

Lemma min_max_signed : Int64.min_signed = - Int64.max_signed - 1.
Proof. reflexivity. Qed.

Lemma add_small x y :
  Int64.min_signed ≤ x + y ≤ Int64.max_signed → Int64.add x y = x + y.
Proof. apply wrap_small. Qed.

Lemma sub_small x y :
  Int64.min_signed ≤ x - y ≤ Int64.max_signed → Int64.sub x y = x - y.
Proof. apply wrap_small. Qed.

Lemma mul_small x y :
  Int64.min_signed ≤ x * y ≤ Int64.max_signed → Int64.mul x y = x * y.
Proof. apply wrap_small. Qed.

(** [wrap] only sees its argument modulo [2 ^ 64]. *)
Lemma wrap_shift z k : Int64.wrap (z + k * 2 ^ 64) = Int64.wrap z.
Proof.
  unfold Int64.wrap.
  replace (z + k * 2 ^ 64 + 2 ^ 63) with (z + 2 ^ 63 + k * 2 ^ 64) by lia.
  by rewrite Z_mod_plus_full.
Qed.

Lemma wrap_decompose z : ∃ k, Int64.wrap z = z + k * 2 ^ 64.
Proof.
  exists (- ((z + 2 ^ 63) / 2 ^ 64)). unfold Int64.wrap.
  rewrite Z.mod_eq by lia. lia.
Qed.

(** A position can be stepped by one in either direction. *)
Lemma succ_position i N :
  0 ≤ i < N → N ≤ Int64.max_signed → Int64.add i 1 = i + 1.
Proof. intros. pose proof min_signed_neg. apply add_small. lia. Qed.

Lemma pred_position i N :
  0 ≤ i ≤ N → N ≤ Int64.max_signed → Int64.sub i 1 = i - 1.
Proof.
  intros. apply sub_small. unfold Int64.min_signed in *. lia.
Qed.

(** ** The inner scans *)

Lemma last_inside_bounds f trips i N :
  0 ≤ i → i + Z.of_nat trips ≤ N → N ≤ Int64.max_signed →
  i - 1 ≤ last_inside f trips i (N - 1) ≤ N - 1.
Proof.
  revert i. induction trips as [|trips IH]; intros i Hi Hn HN; simpl.
  - lia.
  - destruct (f i).
    + rewrite (pred_position i N) by lia. lia.
    + rewrite (succ_position i N) by lia.
      specialize (IH (i + 1)). lia.
Qed.

Lemma last_inside_ext f g trips i d N :
  0 ≤ i → i + Z.of_nat trips ≤ N → N ≤ Int64.max_signed →
  (∀ j, i ≤ j < N → f j = g j) →
  last_inside f trips i d = last_inside g trips i d.
Proof.
  revert i. induction trips as [|trips IH]; intros i Hi Hn HN Hfg; simpl.
  - reflexivity.
  - rewrite <- (Hfg i) by lia. destruct (f i); [reflexivity|].
    rewrite (succ_position i N) by lia.
    apply IH; [lia .. |]. intros j Hj. apply Hfg. lia.
Qed.

(** A scan that starts right after position [p] ends at [p] or later. *)
Lemma for_range_bounds f p N :
  0 ≤ p < N → N ≤ Int64.max_signed →
  p ≤ for_range f (Int64.add p 1) N (Int64.sub N 1) ≤ N - 1.
Proof.
  intros Hp HN. unfold for_range.
  rewrite (succ_position p N), (pred_position N N) by lia.
  pose proof (last_inside_bounds f (Z.to_nat (N - (p + 1))) (p + 1) N).
  lia.
Qed.

Lemma for_range_ext f g p N :
  0 ≤ p < N → N ≤ Int64.max_signed →
  (∀ j, p < j < N → f j = g j) →
  for_range f (Int64.add p 1) N (Int64.sub N 1)
  = for_range g (Int64.add p 1) N (Int64.sub N 1).
Proof.
  intros Hp HN Hfg. unfold for_range.
  rewrite (succ_position p N) by lia.
  apply (last_inside_ext f g _ _ _ N); [lia .. |].
  intros j Hj. apply Hfg. lia.
Qed.

(** ** One pass of the loop *)

Lemma take_succ_insert {A} (l : list A) k x :
  (k < length l)%nat → take (S k) (<[k:=x]> l) = take k l ++ [x].
Proof.
  intros Hk. rewrite (take_S_r _ k x) by (by apply list_lookup_insert_eq).
  by rewrite take_insert_ge.
Qed.

Lemma drop_succ_insert {A} (l : list A) k x :
  drop (S k) (<[k:=x]> l) = drop 1 (drop k l).
Proof. rewrite drop_insert_lt by lia. rewrite drop_drop. f_equal. lia. Qed.

Section Body.

Variable m : memory.
Variable index : list Z.
Variables N window_size step_size idx_scalar : Z.
Hypothesis N_fits : N ≤ Int64.max_signed.

Local Abbreviation body := (sweep_body m index N window_size step_size idx_scalar).

Lemma body_positions st :
  0 ≤ window_i st ≤ next_index_si st →
  next_index_si st ≤ next_index_ei st →
  next_index_ei st < N →
  window_i (body st) = window_i st + 1 ∧
  next_index_si st < next_index_si (body st) ≤ next_index_ei (body st) ∧
  next_index_ei st < next_index_ei (body st) ≤ N ∧
  next_index_ei st ≤ index_window_i_of m index N window_size idx_scalar
                       (next_index_si st) (next_index_ei st) < N.
Proof.
  intros Hwi Hsi Hei. unfold sweep_body; simpl.
  unfold index_step_i_of, index_window_i_of.
  set (fs := outside _ _ _ (index_step_max_of _ _ _ _ _)).
  set (fw := outside _ _ _ (index_window_max_of _ _ _ _ _)).
  pose proof (for_range_bounds fs (next_index_si st) N ltac:(lia) N_fits) as Hs.
  pose proof (for_range_bounds fw (next_index_ei st) N ltac:(lia) N_fits) as Hw.
  set (si := for_range fs _ _ _) in *. set (wi := for_range fw _ _ _) in *.
  rewrite (succ_position (window_i st) N), (succ_position si N),
    (succ_position wi N) by lia.
  destruct (Z.gtb_spec (si + 1) (wi + 1)); lia.
Qed.

Lemma body_inv e0 st :
  sweep_inv N e0 st → next_index_ei st < N → sweep_inv N e0 (body st).
Proof.
  intros [Hwi Hsi Hei Hls Hle Hun Hrest Hws Hwe] Hlt.
  destruct (body_positions st Hwi Hsi Hlt) as (Hk & Hs & He & Hw).
  assert (Hk' : Z.to_nat (window_i (body st)) = S (Z.to_nat (window_i st)))
    by (rewrite Hk; lia).
  assert (Hlen : (Z.to_nat (window_i st) < Z.to_nat N)%nat) by lia.
  split; rewrite ?Hk'; try lia.
  - simpl. by rewrite length_insert.
  - simpl. by rewrite length_insert.
  - simpl. rewrite drop_succ_insert, Hun, drop_replicate. f_equal. lia.
  - simpl. rewrite drop_succ_insert, Hrest, drop_drop. f_equal. lia.
  - simpl. rewrite take_succ_insert by lia.
    apply Forall_app; split; [done|]. apply Forall_singleton. lia.
  - simpl. rewrite take_succ_insert by lia.
    apply Forall_app; split; [done|]. apply Forall_singleton. lia.
Qed.

Lemma init_inv e0 :
  0 ≤ N → length e0 = Z.to_nat N →
  sweep_inv N e0 (sweep_init (replicate (Z.to_nat N) (-1)) e0).
Proof.
  intros HN Hlen. split; simpl; try lia; try done.
  - by rewrite length_replicate.
  - by rewrite Nat.sub_0_r.
Qed.

(** The loop is left within [N - next_index_ei] passes. *)
Lemma sweep_terminates e0 fuel st :
  sweep_inv N e0 st → (Z.to_nat (N - next_index_ei st) ≤ fuel)%nat →
  ∃ st', sweep m index N window_size step_size idx_scalar fuel st = Ok st' ∧
         sweep_inv N e0 st' ∧ next_index_ei st' = N.
Proof.
  revert st. induction fuel as [|fuel IH]; intros st Hinv Hfuel; simpl.
  - destruct (Z.ltb_spec (next_index_ei st) N); [lia|].
    exists st. pose proof (inv_ei _ _ _ Hinv). split; [done|]. split; [done|lia].
  - destruct (Z.ltb_spec (next_index_ei st) N) as [Hlt|Hge].
    + apply IH; [by apply body_inv|].
      destruct Hinv as [Hwi Hsi _ _ _ _ _ _ _].
      pose proof (body_positions st Hwi Hsi Hlt). lia.
    + exists st. pose proof (inv_ei _ _ _ Hinv). split; [done|]. split; [done|lia].
Qed.

(** The state in which the loop is left is the body iterated, once per slot. *)
Lemma sweep_passes e0 fuel st st' :
  sweep_inv N e0 st →
  sweep m index N window_size step_size idx_scalar fuel st = Ok st' →
  ∃ passes : nat, (passes ≤ fuel)%nat ∧ st' = Nat.iter passes body st ∧
                  window_i st' = window_i st + Z.of_nat passes.
Proof.
  revert st. induction fuel as [|fuel IH]; intros st Hinv; simpl;
    destruct (Z.ltb_spec (next_index_ei st) N) as [Hlt|Hge]; try done.
  - intros [= <-]. exists 0%nat. split; [lia|]. split; [done|lia].
  - intros Hrun.
    destruct (IH (body st) (body_inv e0 st Hinv Hlt) Hrun) as (p & Hp & -> & Hwi).
    exists (S p). split; [lia|]. split; [by rewrite Nat.iter_succ_r|].
    destruct Hinv as [Hw Hs _ _ _ _ _ _ _].
    destruct (body_positions st Hw Hs Hlt) as (Hk & _). lia.
  - intros [= <-]. exists 0%nat. split; [lia|]. split; [done|lia].
Qed.

Lemma reachable_inv e0 st :
  0 ≤ N → length e0 = Z.to_nat N →
  reachable m index N window_size step_size idx_scalar
    (sweep_init (replicate (Z.to_nat N) (-1)) e0) st →
  sweep_inv N e0 st.
Proof.
  intros HN Hlen Hreach. induction Hreach.
  - by apply init_inv.
  - by apply body_inv.
Qed.

End Body.

(** ** The filter, slot by slot *)

Lemma select_windows_nil_l e mp lo ro : select_windows [] e mp lo ro = ([], []).
Proof. by destruct e, lo, ro. Qed.

Lemma select_windows_nil_r s mp lo ro : select_windows s [] mp lo ro = ([], []).
Proof. by destruct s, lo, ro. Qed.

Lemma select_windows_cons s ss e es mp lo ro :
  select_windows (s :: ss) (e :: es) mp lo ro =
  let rest := select_windows ss es mp lo ro in
  if (0 <=? s) && (s <=? e) && (mp <=? Int64.add (Int64.sub e s) 1)
  then ((if lo then Int64.sub s 1 else s) :: rest.1,
        (if ro then Int64.add e 1 else e) :: rest.2)
  else rest.
Proof.
  unfold select_windows, np_and, np_ge_scalar, np_le, np_sub, np_add_scalar,
    np_sub_scalar.
  destruct lo, ro; simpl;
    destruct ((0 <=? s) && (s <=? e) && (mp <=? Int64.add (Int64.sub e s) 1));
    reflexivity.
Qed.

(** Cells still holding the sentinel are dropped whatever the other array holds. *)
Lemma select_windows_sentinel n e mp lo ro :
  select_windows (replicate n (-1)) e mp lo ro = ([], []).
Proof.
  revert e. induction n as [|n IH]; intros e; simpl.
  - apply select_windows_nil_l.
  - destruct e as [|x e]; [apply select_windows_nil_r|].
    rewrite select_windows_cons. simpl. apply IH.
Qed.

(** On written slots, whose values are positions, the numpy pipeline is the
    filter by [slot_valid] followed by the adjustment. *)
Lemma select_windows_written N ss es n rest mp lo ro :
  N ≤ Int64.max_signed →
  Forall (λ s, 0 ≤ s < N) ss → Forall (λ e, 0 ≤ e < N) es →
  length ss = length es →
  select_windows (ss ++ replicate n (-1)) (es ++ rest) mp lo ro =
  (adjust_start lo <$> (List.filter (slot_valid mp) (zip ss es)).*1,
   adjust_end ro <$> (List.filter (slot_valid mp) (zip ss es)).*2).
Proof.
  intros HN Hss. revert es.
  induction Hss as [|s ss Hs Hss IH]; intros es Hes Hlen.
  - destruct es; [|done]. simpl. apply select_windows_sentinel.
  - destruct es as [|e es]; [done|].
    apply Forall_cons in Hes as [He Hes]. simpl in Hlen.
    rewrite <- !app_comm_cons, select_windows_cons. cbv zeta.
    rewrite (IH es) by (done || lia). cbn [fst snd zip zip_with List.filter].
    pose proof min_max_signed.
    rewrite (sub_small e s), (add_small (e - s) 1) by lia.
    change ((0 <=? s) && (s <=? e) && (mp <=? e - s + 1))
      with (slot_valid mp (s, e)).
    destruct (slot_valid mp (s, e)); [|done].
    cbn [fmap list_fmap fst snd]. f_equal.
    + f_equal. destruct lo; simpl; [apply sub_small; lia | done].
    + f_equal. destruct ro; simpl; [apply add_small; lia | done].
Qed.

(** ** The whole call *)

Lemma zip_fmap_pair {A B C D} (f : A → C) (g : B → D) (l : list (A * B)) :
  zip (f <$> l.*1) (g <$> l.*2) = (λ p, (f p.1, g p.2)) <$> l.
Proof.
  induction l as [|[a b] l IH]; [done|]. simpl. f_equal. exact IH.
Qed.

Lemma length_filter_le {A} (f : A → bool) (l : list A) :
  (length (List.filter f l) ≤ length l)%nat.
Proof. induction l as [|x l IH]; simpl; [lia|]. destruct (f x); simpl; lia. Qed.

Lemma as_int64_fits v : Int64.fits v = true → as_int64 v = Ok v.
Proof. unfold as_int64. by intros ->. Qed.

Lemma np_empty_nonneg m n : 0 ≤ n → np_empty m n = Ok (end0 m n).
Proof.
  intros Hn. unfold np_empty, end0.
  by destruct (Z.ltb_spec n 0); [lia|].
Qed.

Lemma length_end0 m n : length (end0 m n) = Z.to_nat n.
Proof. unfold end0. by rewrite length_fmap, length_seq. Qed.

Lemma fill_end0 m n : fill (end0 m n) (-1) = start0 n.
Proof. unfold fill, start0. by rewrite length_end0. Qed.

Lemma length_written N e0 st :
  sweep_inv N e0 st → length (written st) = Z.to_nat (window_i st).
Proof.
  intros Hinv. unfold written.
  pose proof (inv_window_i _ _ _ Hinv). pose proof (inv_si_ei _ _ _ Hinv).
  pose proof (inv_ei _ _ _ Hinv).
  rewrite length_zip_with, !length_take,
    (inv_length_start _ _ _ Hinv), (inv_length_end _ _ _ Hinv). lia.
Qed.

(** The filter applied to the arrays the loop leaves behind. *)
Lemma select_windows_swept N e0 st mp lo ro :
  N ≤ Int64.max_signed → sweep_inv N e0 st →
  select_windows (start st) (end_ st) mp lo ro =
  (adjust_start lo <$> (List.filter (slot_valid mp) (written st)).*1,
   adjust_end ro <$> (List.filter (slot_valid mp) (written st)).*2).
Proof.
  intros HN Hinv. set (k := Z.to_nat (window_i st)).
  rewrite <- (take_drop k (start st)) at 1.
  rewrite <- (take_drop k (end_ st)) at 1.
  unfold k at 2. rewrite (inv_unwritten _ _ _ Hinv).
  apply (select_windows_written N); [done| | |].
  - apply (inv_written_start _ _ _ Hinv).
  - apply (inv_written_end _ _ _ Hinv).
  - by rewrite !length_take, (inv_length_start _ _ _ Hinv), (inv_length_end _ _ _ Hinv).
Qed.

(** Filtering all the cells of the arrays or only the written ones is the same:
    the others hold the sentinel. *)
Lemma filter_sentinel mp n (l : list Z) :
  List.filter (slot_valid mp) (zip (replicate n (-1)) l) = [].
Proof.
  revert l. induction n as [|n IH]; intros [|e l]; simpl; done.
Qed.

Lemma filter_all_cells N e0 st mp :
  sweep_inv N e0 st →
  List.filter (slot_valid mp) (zip (start st) (end_ st))
  = List.filter (slot_valid mp) (written st).
Proof.
  intros Hinv. set (k := Z.to_nat (window_i st)).
  rewrite <- (take_drop k (start st)) at 1.
  rewrite <- (take_drop k (end_ st)) at 1.
  rewrite zip_with_app
    by (by rewrite !length_take, (inv_length_start _ _ _ Hinv),
                   (inv_length_end _ _ _ Hinv)).
  rewrite List.filter_app. unfold k at 3.
  rewrite (inv_unwritten _ _ _ Hinv).
  by rewrite filter_sentinel, app_nil_r.
Qed.

Lemma swept_terminates m N window_size step_size_obj index :
  0 ≤ N ≤ Int64.max_signed →
  ∃ st, swept m N window_size step_size_obj index = Ok st ∧
        sweep_inv N (end0 m N) st ∧ next_index_ei st = N.
Proof.
  intros HN. unfold swept, start0.
  apply (sweep_terminates m index N _ _ _ ltac:(lia) (end0 m N)).
  - apply init_inv; [lia | apply length_end0].
  - simpl. lia.
Qed.

(** A call that passes the conversions and the allocation runs the sweep to
    its end and returns the valid written slots, adjusted. *)
Lemma calculate_returns m N window_size step_size_obj min_periods_obj center closed index :
  well_typed N window_size step_size_obj min_periods_obj → 0 ≤ N →
  ∃ st, swept m N window_size step_size_obj index = Ok st ∧
        sweep_inv N (end0 m N) st ∧ next_index_ei st = N ∧
        calculate_variable_window_bounds m N window_size step_size_obj
          min_periods_obj center closed index =
        Ok (adjust_start (left_open_of closed) <$>
              (List.filter (slot_valid (default 0 min_periods_obj)) (written st)).*1,
            adjust_end (right_open_of closed) <$>
              (List.filter (slot_valid (default 0 min_periods_obj)) (written st)).*2).
Proof.
  intros (HfN & Hfw & Hfs & Hfm) HN.
  pose proof (proj1 (fits_spec N) HfN) as HNr.
  destruct (swept_terminates m N window_size step_size_obj index ltac:(lia))
    as (st & Hst & Hinv & Hei).
  exists st. split; [done|]. split; [done|]. split; [done|].
  unfold calculate_variable_window_bounds.
  rewrite (as_int64_fits N HfN). cbn [mbind result_mbind result_bind].
  rewrite (as_int64_fits window_size Hfw). cbn [mbind result_mbind result_bind].
  rewrite (as_int64_fits _ Hfm). cbn [mbind result_mbind result_bind].
  rewrite (as_int64_fits _ Hfs). cbn [mbind result_mbind result_bind].
  rewrite (np_empty_nonneg m N) by lia. cbn [mbind result_mbind result_bind].
  rewrite fill_end0.
  destruct (Z.ltb_spec N 1) as [Hz|Hpos].
  - assert (N = 0) as -> by lia.
    pose proof (length_written _ _ _ Hinv) as Hlen.
    pose proof (inv_window_i _ _ _ Hinv). pose proof (inv_si_ei _ _ _ Hinv).
    destruct (written st); [done|]. simpl in Hlen. lia.
  - unfold swept in Hst. rewrite Hst. cbn [mbind result_mbind result_bind].
    f_equal. apply (select_windows_swept N (end0 m N)); [lia | done].
Qed.

(** ** The flags *)

Lemma right_open_of_spec closed :
  right_open_of closed = true ↔
  closed_or_default closed ≠ "right"%string ∧ closed_or_default closed ≠ "both"%string.
Proof.
  unfold right_open_of, py_in. simpl.
  rewrite negb_true_iff, !orb_false_iff, !String.eqb_neq. tauto.
Qed.

Lemma left_open_of_spec closed :
  left_open_of closed = true ↔
  closed_or_default closed ≠ "left"%string ∧ closed_or_default closed ≠ "both"%string.
Proof.
  unfold left_open_of, py_in. simpl.
  rewrite negb_true_iff, !orb_false_iff, !String.eqb_neq. tauto.
Qed.

Lemma Forall2_fmap_pair {A B C D} (P : C → D → Prop) (f : A → C) (g : B → D)
    (l : list (A * B)) :
  Forall (λ p, P (f p.1) (g p.2)) l → Forall2 P (f <$> l.*1) (g <$> l.*2).
Proof. induction 1; simpl; by constructor. Qed.

(** Written slots hold positions. *)
Lemma written_positions N e0 st slot :
  sweep_inv N e0 st → slot ∈ written st → 0 ≤ slot.1 < N ∧ 0 ≤ slot.2 < N.
Proof.
  intros Hinv Hin. destruct slot as [s e]. unfold written in Hin. split.
  - apply elem_of_zip_l in Hin.
    by apply (proj1 (Forall_forall _ _) (inv_written_start _ _ _ Hinv)).
  - apply elem_of_zip_r in Hin.
    by apply (proj1 (Forall_forall _ _) (inv_written_end _ _ _ Hinv)).
Qed.

Lemma sweep_reachable m index N window_size step_size idx_scalar init fuel st st' :
  reachable m index N window_size step_size idx_scalar init st →
  sweep m index N window_size step_size idx_scalar fuel st = Ok st' →
  reachable m index N window_size step_size idx_scalar init st'.
Proof.
  revert st. induction fuel as [|fuel IH]; intros st Hreach; simpl;
    destruct (Z.ltb_spec (next_index_ei st) N) as [Hlt|Hge]; try done.
  - by intros [= <-].
  - apply IH. by constructor.
  - by intros [= <-].
Qed.

(** ** What the uninitialised cells can influence *)

Section EndIrrelevant.

Variable m : memory.
Variable index : list Z.
Variables N window_size step_size idx_scalar : Z.
Hypothesis N_fits : N ≤ Int64.max_signed.

Local Abbreviation body := (sweep_body m index N window_size step_size idx_scalar).
Local Abbreviation run := (sweep m index N window_size step_size idx_scalar).

Lemma body_agree e1 e2 st1 st2 :
  sweep_inv N e1 st1 → sweep_inv N e2 st2 → agree_written st1 st2 →
  next_index_ei st1 < N → agree_written (body st1) (body st2).
Proof.
  intros Hinv1 Hinv2 (Hwi & Hsi & Hei & Hstart & Hend) Hlt.
  destruct Hinv1 as [Hw1 Hs1 He1 _ Hl1 _ _ _ _].
  destruct Hinv2 as [_ _ _ _ Hl2 _ _ _ _].
  unfold agree_written, sweep_body. simpl.
  rewrite <- Hwi, <- Hsi, <- Hei, <- Hstart.
  split; [done|]. split; [done|]. split; [done|]. split; [done|].
  rewrite (succ_position (window_i st1) N) by lia.
  replace (Z.to_nat (window_i st1 + 1)) with (S (Z.to_nat (window_i st1))) by lia.
  rewrite !take_succ_insert by lia. by rewrite Hend.
Qed.

Lemma sweep_agree e1 e2 fuel st1 st2 st1' :
  sweep_inv N e1 st1 → sweep_inv N e2 st2 → agree_written st1 st2 →
  run fuel st1 = Ok st1' →
  ∃ st2', run fuel st2 = Ok st2' ∧ agree_written st1' st2'.
Proof.
  revert st1 st2. induction fuel as [|fuel IH]; intros st1 st2 Hinv1 Hinv2 Hag; simpl;
    pose proof Hag as (_ & _ & Hei & _); rewrite <- Hei;
    destruct (Z.ltb_spec (next_index_ei st1) N) as [Hlt|Hge]; try done.
  - intros [= <-]. by exists st2.
  - apply IH; [by apply body_inv | | by eapply body_agree].
    apply body_inv; [done..|]. by rewrite <- Hei.
  - intros [= <-]. by exists st2.
Qed.

End EndIrrelevant.

Lemma agree_written_slots st1 st2 : agree_written st1 st2 → written st1 = written st2.
Proof.
  intros (Hwi & _ & _ & Hstart & Hend). unfold written.
  by rewrite <- Hwi, <- Hstart, Hend.
Qed.

(** ** Ascending and mirrored indexes *)

Lemma moderate_spec z : moderate z = true ↔ - 2 ^ 61 ≤ z ≤ 2 ^ 61.
Proof. unfold moderate. rewrite andb_true_iff, !Z.leb_le. tauto. Qed.

Lemma is_ascending_cons x l :
  is_ascending (x :: l) = true → is_ascending l = true ∧ Forall (λ y, x ≤ y) l.
Proof.
  revert x. induction l as [|y l IH]; intros x H; [by split|].
  simpl in H. apply andb_true_iff in H as [Hxy Hl]. apply Z.leb_le in Hxy.
  split; [done|]. constructor; [done|].
  destruct (IH y Hl) as [_ Hall].
  eapply Forall_impl; [exact Hall|]. simpl. lia.
Qed.

Lemma is_ascending_lookup l i j x y :
  is_ascending l = true → l !! i = Some x → l !! j = Some y → (i ≤ j)%nat → x ≤ y.
Proof.
  revert i j. induction l as [|z l IH]; intros i j Hasc Hi Hj Hij; [done|].
  destruct (is_ascending_cons z l Hasc) as [Hl Hall].
  destruct i as [|i], j as [|j]; simpl in *; try lia.
  - injection Hi as <-. injection Hj as <-. lia.
  - injection Hi as <-.
    apply (proj1 (Forall_forall _ _) Hall). by eapply list_elem_of_lookup_2.
  - apply (IH i j); [done..|lia].
Qed.

Lemma getitem_inside m index i x :
  0 ≤ i → index !! Z.to_nat i = Some x → getitem m index i = x.
Proof.
  intros Hi Hx. unfold getitem.
  destruct (Z.leb_spec 0 i); [|lia]. by rewrite Hx.
Qed.

(** On an ascending index the direction found is +1. *)
Lemma direction_of_ascending m index N :
  Z.of_nat (length index) = N → N ≤ Int64.max_signed →
  is_ascending index = true → 1 ≤ N → direction m index N = 1.
Proof.
  intros Hlen HN Hasc Hpos. unfold direction. rewrite (pred_position N N) by lia.
  destruct (lookup_lt_is_Some_2 index (Z.to_nat (N - 1))) as [x Hx]; [lia|].
  destruct (lookup_lt_is_Some_2 index (Z.to_nat 0)) as [y Hy]; [lia|].
  rewrite (getitem_inside m index (N - 1) x), (getitem_inside m index 0 y)
    by (done || lia).
  pose proof (is_ascending_lookup index _ _ y x Hasc Hy Hx ltac:(lia)).
  by destruct (Z.ltb_spec x y); [lia|].
Qed.

(** Two indexes on which every test of the sweep has the same answer. *)
Section SameTests.

Variable m : memory.
Variables index1 index2 : list Z.
Variables N window_size step_size scalar1 scalar2 : Z.
Hypothesis N_fits : N ≤ Int64.max_signed.
Hypothesis same_tests : ∀ w si j,
  w = window_size ∨ w = step_size → 0 ≤ si < N → 0 ≤ j < N →
  outside m index1 scalar1
    (Int64.add (getitem m index1 si) (Int64.mul scalar1 (Int64.sub w 1))) j
  = outside m index2 scalar2
      (Int64.add (getitem m index2 si) (Int64.mul scalar2 (Int64.sub w 1))) j.

Lemma body_same_tests e0 st :
  sweep_inv N e0 st → next_index_ei st < N →
  sweep_body m index1 N window_size step_size scalar1 st
  = sweep_body m index2 N window_size step_size scalar2 st.
Proof.
  intros [Hwi Hsi Hei _ _ _ _ _ _] Hlt.
  assert (Hstep :
    index_step_i_of m index1 N step_size scalar1 (next_index_si st)
    = index_step_i_of m index2 N step_size scalar2 (next_index_si st)).
  { apply for_range_ext; [lia|done|]. intros j Hj.
    apply same_tests; [by right|lia..]. }
  assert (Hwin :
    index_window_i_of m index1 N window_size scalar1 (next_index_si st) (next_index_ei st)
    = index_window_i_of m index2 N window_size scalar2
        (next_index_si st) (next_index_ei st)).
  { apply for_range_ext; [lia|done|]. intros j Hj.
    apply same_tests; [by left|lia..]. }
  unfold sweep_body. by rewrite Hstep, Hwin.
Qed.

Lemma sweep_same_tests e0 fuel st :
  sweep_inv N e0 st →
  sweep m index1 N window_size step_size scalar1 fuel st
  = sweep m index2 N window_size step_size scalar2 fuel st.
Proof.
  revert st. induction fuel as [|fuel IH]; intros st Hinv; simpl; [done|].
  destruct (Z.ltb_spec (next_index_ei st) N) as [Hlt|Hge]; [|done].
  rewrite (body_same_tests e0) by done. apply IH. by apply body_inv.
Qed.

End SameTests.

Lemma calculate_same_tests m N window_size step_size_obj min_periods_obj center closed
    index1 index2 :
  well_typed N window_size step_size_obj min_periods_obj → 0 ≤ N →
  (∀ w si j,
     w = window_size ∨ w = default 1 step_size_obj → 0 ≤ si < N → 0 ≤ j < N →
     outside m index1 (direction m index1 N)
       (Int64.add (getitem m index1 si)
          (Int64.mul (direction m index1 N) (Int64.sub w 1))) j
     = outside m index2 (direction m index2 N)
         (Int64.add (getitem m index2 si)
            (Int64.mul (direction m index2 N) (Int64.sub w 1))) j) →
  calculate_variable_window_bounds m N window_size step_size_obj min_periods_obj
    center closed index1
  = calculate_variable_window_bounds m N window_size step_size_obj min_periods_obj
      center closed index2.
Proof.
  intros Hty HN Hsame.
  pose proof (proj1 (fits_spec N) (proj1 Hty)) as HNr.
  destruct (calculate_returns m N window_size step_size_obj min_periods_obj
              center closed index1 Hty HN) as (st1 & Hst1 & _ & _ & ->).
  destruct (calculate_returns m N window_size step_size_obj min_periods_obj
              center closed index2 Hty HN) as (st2 & Hst2 & _ & _ & ->).
  unfold swept in Hst1, Hst2.
  rewrite (sweep_same_tests m index1 index2 N window_size (default 1 step_size_obj)
             _ _ ltac:(lia) Hsame (end0 m N)) in Hst1.
  - rewrite Hst2 in Hst1. by injection Hst1 as <-.
  - apply init_inv; [done | apply length_end0].
Qed.

(** The negation of an ascending index, where the direction found is -1:
    the tests agree whatever the magnitudes, wrap-around included. *)
Section Negated.

Variable m : memory.
Variable index : list Z.
Variable N : Z.
Hypothesis length_index : Z.of_nat (length index) = N.
Hypothesis N_fits : N ≤ Int64.max_signed.
Hypothesis ascending : is_ascending index = true.
Hypothesis negatable_index : forallb negatable index = true.
Hypothesis found_descending : direction m (Z.opp <$> index) N = -1.

Lemma negated_inside i :
  0 ≤ i < N →
  ∃ x, Int64.min_signed < x ≤ Int64.max_signed ∧
       getitem m index i = x ∧ getitem m (Z.opp <$> index) i = - x.
Proof.
  intros Hi. destruct (lookup_lt_is_Some_2 index (Z.to_nat i)) as [x Hx]; [lia|].
  exists x. split; [|split].
  - assert (Hn : negatable x = true).
    { apply (proj1 (forallb_forall _ _) negatable_index).
      apply list_elem_of_In. by eapply list_elem_of_lookup_2. }
    unfold negatable in Hn. apply andb_true_iff in Hn as [H1 H2].
    apply Z.ltb_lt in H1. apply Z.leb_le in H2. lia.
  - apply getitem_inside; [lia|done].
  - apply getitem_inside; [lia|]. by rewrite list_lookup_fmap, Hx.
Qed.

Lemma outside_negated w si j :
  1 ≤ N → 0 ≤ si < N → 0 ≤ j < N →
  outside m (Z.opp <$> index) (direction m (Z.opp <$> index) N)
    (Int64.add (getitem m (Z.opp <$> index) si)
       (Int64.mul (direction m (Z.opp <$> index) N) (Int64.sub w 1))) j
  = outside m index (direction m index N)
      (Int64.add (getitem m index si)
         (Int64.mul (direction m index N) (Int64.sub w 1))) j.
Proof.
  intros HN Hsi Hj. rewrite found_descending.
  rewrite (direction_of_ascending m index N) by done.
  destruct (negated_inside si Hsi) as (y & Hy & -> & ->).
  unfold outside.
  destruct (negated_inside j Hj) as (x & Hx & -> & ->).
  pose proof min_max_signed as Hmm.
  rewrite (mul_small (-1) (- x)), (mul_small 1 x) by lia.
  replace (-1 * - x) with (1 * x) by lia. f_equal.
  unfold Int64.mul, Int64.add, Int64.sub.
  destruct (wrap_decompose (w - 1)) as [k1 ->].
  destruct (wrap_decompose (-1 * (w - 1 + k1 * 2 ^ 64))) as [k2 ->].
  destruct (wrap_decompose (1 * (w - 1 + k1 * 2 ^ 64))) as [k3 ->].
  destruct (wrap_decompose
              (- y + (-1 * (w - 1 + k1 * 2 ^ 64) + k2 * 2 ^ 64))) as [k4 ->].
  destruct (wrap_decompose
              (y + (1 * (w - 1 + k1 * 2 ^ 64) + k3 * 2 ^ 64))) as [k5 ->].
  set (M := 2 ^ 64).
  replace (-1 * (- y + (-1 * (w - 1 + k1 * M) + k2 * M) + k4 * M))
    with (y + (w - 1) + (k1 - k2 - k4) * M) by lia.
  replace (1 * (y + (1 * (w - 1 + k1 * M) + k3 * M) + k5 * M))
    with (y + (w - 1) + (k1 + k3 + k5) * M) by lia.
  unfold M. by rewrite !wrap_shift.
Qed.

End Negated.

Section Mirror.

Variable m : memory.
Variable index : list Z.
Variables N c : Z.
Hypothesis length_index : Z.of_nat (length index) = N.
Hypothesis N_fits : N ≤ Int64.max_signed.
Hypothesis ascending : is_ascending index = true.
Hypothesis moderate_index : forallb moderate index = true.
Hypothesis moderate_c : moderate c = true.

Lemma index_inside i :
  0 ≤ i < N →
  ∃ x, index !! Z.to_nat i = Some x ∧ - 2 ^ 61 ≤ x ≤ 2 ^ 61 ∧
       getitem m index i = x ∧ getitem m (mirrored c index) i = c - x.
Proof.
  intros Hi. destruct (lookup_lt_is_Some_2 index (Z.to_nat i)) as [x Hx]; [lia|].
  exists x. split; [done|]. split; [|split].
  - apply moderate_spec.
    apply (proj1 (forallb_forall _ _) moderate_index). 
    apply list_elem_of_In. by eapply list_elem_of_lookup_2.
  - apply getitem_inside; [lia|done].
  - apply getitem_inside; [lia|]. unfold mirrored. by rewrite list_lookup_fmap, Hx.
Qed.

(** The direction found on an ascending index is +1. *)
Lemma direction_ascending : 1 ≤ N → direction m index N = 1.
Proof.
  intros HN. unfold direction. rewrite (pred_position N N) by lia.
  destruct (index_inside (N - 1)) as (x & Hx & _ & -> & _); [lia|].
  destruct (index_inside 0) as (y & Hy & _ & -> & _); [lia|].
  pose proof (is_ascending_lookup index _ _ y x ascending Hy Hx ltac:(lia)).
  by destruct (Z.ltb_spec x y); [lia|].
Qed.

(** On the mirrored index it is -1, unless all values are equal. *)
Lemma direction_mirrored :
  1 ≤ N →
  direction m (mirrored c index) N = -1 ∨
  (direction m (mirrored c index) N = 1 ∧
   ∀ i j, 0 ≤ i < N → 0 ≤ j < N → getitem m index i = getitem m index j).
Proof.
  intros HN. unfold direction. rewrite (pred_position N N) by lia.
  destruct (index_inside (N - 1)) as (x & Hx & _ & _ & ->); [lia|].
  destruct (index_inside 0) as (y & Hy & _ & _ & ->); [lia|].
  destruct (Z.ltb_spec (c - x) (c - y)) as [Hlt|Hge]; [by left|right].
  split; [done|]. intros i j Hi Hj.
  destruct (index_inside i Hi) as (a & Ha & _ & -> & _).
  destruct (index_inside j Hj) as (b & Hb & _ & -> & _).
  pose proof (is_ascending_lookup index _ _ y a ascending Hy Ha ltac:(lia)).
  pose proof (is_ascending_lookup index _ _ a x ascending Ha Hx ltac:(lia)).
  pose proof (is_ascending_lookup index _ _ y b ascending Hy Hb ltac:(lia)).
  pose proof (is_ascending_lookup index _ _ b x ascending Hb Hx ltac:(lia)).
  lia.
Qed.

(** The test "is position [j] outside the span of size [w] that starts at
    position [si]" has the same answer on both indexes. *)
Lemma outside_mirrored w si j :
  1 ≤ N → moderate w = true → 0 ≤ si < N → 0 ≤ j < N →
  outside m (mirrored c index) (direction m (mirrored c index) N)
    (Int64.add (getitem m (mirrored c index) si)
       (Int64.mul (direction m (mirrored c index) N) (Int64.sub w 1))) j
  = outside m index (direction m index N)
      (Int64.add (getitem m index si)
         (Int64.mul (direction m index N) (Int64.sub w 1))) j.
Proof.
  intros HN Hw Hsi Hj. rewrite direction_ascending by done.
  apply moderate_spec in Hw. pose proof (proj1 (moderate_spec c) moderate_c) as Hc.
  assert (Hmax : Int64.max_signed = 2 ^ 63 - 1) by reflexivity.
  assert (Hmin : Int64.min_signed = - 2 ^ 63) by reflexivity.
  assert (H61 : 2 ^ 63 = 4 * 2 ^ 61) by reflexivity.
  unfold outside.
  destruct (direction_mirrored HN) as [-> | [-> Hconst]].
  - destruct (index_inside si Hsi) as (y & _ & Hy & -> & ->).
    destruct (index_inside j Hj) as (x & _ & Hx & -> & ->).
    rewrite (sub_small w 1) by lia.
    rewrite (mul_small (-1) (w - 1)), (mul_small 1 (w - 1)) by lia.
    rewrite (add_small (c - y)), (add_small y) by lia.
    rewrite !mul_small by lia.
    destruct (Z.gtb_spec (-1 * (c - x)) (-1 * (c - y + -1 * (w - 1))));
      destruct (Z.gtb_spec (1 * x) (1 * (y + 1 * (w - 1)))); (done || lia).
  - specialize (Hconst si j Hsi Hj).
    destruct (index_inside si Hsi) as (y & _ & Hy & Hgy & ->).
    destruct (index_inside j Hj) as (x & _ & Hx & Hgx & ->).
    rewrite Hgy, Hgx in *. subst y.
    rewrite (sub_small w 1) by lia.
    rewrite (mul_small 1 (w - 1)) by lia.
    rewrite (add_small (c - x)), (add_small x) by lia.
    rewrite !mul_small by lia.
    destruct (Z.gtb_spec (1 * (c - x)) (1 * (c - x + 1 * (w - 1))));
      destruct (Z.gtb_spec (1 * x) (1 * (x + 1 * (w - 1)))); (done || lia).
Qed.

End Mirror.

(** ** Properties of the specification *)

(** C6.  A call with [num_values = 0] raises nothing and returns two empty
    sequences ([closed], [window_size], ... being whatever they are, the
    integers among them representable as [int64_t]). *)
Theorem empty_input_returns_empty m window_size step_size_obj min_periods_obj
    center closed index :
  well_typed 0 window_size step_size_obj min_periods_obj →
  calculate_variable_window_bounds m 0 window_size step_size_obj
    min_periods_obj center closed index = Ok ([], []).
Proof.
  intros (HfN & Hfw & Hfs & Hfm).
  unfold calculate_variable_window_bounds.
  rewrite (as_int64_fits 0 HfN). cbn [mbind result_mbind result_bind].
  rewrite (as_int64_fits window_size Hfw). cbn [mbind result_mbind result_bind].
  rewrite (as_int64_fits _ Hfm). cbn [mbind result_mbind result_bind].
  rewrite (as_int64_fits _ Hfs). cbn [mbind result_mbind result_bind].
  reflexivity.
Qed.

Lemma empty_input_returns_empty_on_no_index :
  well_typed 0 3 None None ∧
  calculate_variable_window_bounds zero_memory 0 3 None None None None [] = Ok ([], []).
Proof.
  split; [repeat split; reflexivity|].
  apply (empty_input_returns_empty zero_memory 3 None None None None []).
  repeat split; reflexivity.
Defined.

(** C2.  The slots that reach the returned pair are exactly those with
    [start >= 0], [start <= end] and [end - start + 1 >= min_periods]
    ([min_periods] read as 0 when absent), tested on the values before
    adjustment; this is so among all the cells of the two arrays and, the
    unwritten ones holding the sentinel, among the slots written by the sweep.
    The others are left out, so that the output is as long as there are valid
    slots. *)
Theorem validity_filter m N window_size step_size_obj min_periods_obj center closed index :
  well_typed N window_size step_size_obj min_periods_obj → 0 ≤ N →
  ∃ st out_start out_end,
    swept m N window_size step_size_obj index = Ok st ∧
    calculate_variable_window_bounds m N window_size step_size_obj
      min_periods_obj center closed index = Ok (out_start, out_end) ∧
    let valid := slot_valid (default 0 min_periods_obj) in
    let adjust (slot : Z * Z) :=
      (adjust_start (left_open_of closed) slot.1,
       adjust_end (right_open_of closed) slot.2) in
    zip out_start out_end = adjust <$> List.filter valid (zip (start st) (end_ st)) ∧
    List.filter valid (zip (start st) (end_ st)) = List.filter valid (written st) ∧
    (∀ slot, slot ∈ written st →
       (adjust slot ∈ zip out_start out_end ↔
        0 ≤ slot.1 ∧ slot.1 ≤ slot.2 ∧
        default 0 min_periods_obj ≤ slot.2 - slot.1 + 1)) ∧
    length out_start = length (List.filter valid (written st)) ∧
    length out_end = length (List.filter valid (written st)) ∧
    (length (List.filter valid (written st)) ≤ length (written st))%nat.
Proof.
  intros Hty HN.
  destruct (calculate_returns m N window_size step_size_obj min_periods_obj
              center closed index Hty HN) as (st & Hst & Hinv & Hei & Hcall).
  eexists st, _, _. split; [done|]. split; [exact Hcall|].
  cbv zeta.
  set (valid := slot_valid (default 0 min_periods_obj)).
  set (adjust := λ slot : Z * Z,
         (adjust_start (left_open_of closed) slot.1,
          adjust_end (right_open_of closed) slot.2)).
  assert (Hzip : zip (adjust_start (left_open_of closed) <$>
                        (List.filter valid (written st)).*1)
                     (adjust_end (right_open_of closed) <$>
                        (List.filter valid (written st)).*2)
                 = adjust <$> List.filter valid (written st))
    by apply zip_fmap_pair.
  pose proof (filter_all_cells N _ st (default 0 min_periods_obj) Hinv) as Hall.
  fold valid in Hall.
  split; [by rewrite Hall|]. split; [exact Hall|]. split; [|split; [|split]].
  - intros slot Hin. rewrite Hzip.
    assert (Hvalid : valid slot = true ↔
              0 ≤ slot.1 ∧ slot.1 ≤ slot.2 ∧
              default 0 min_periods_obj ≤ slot.2 - slot.1 + 1).
    { unfold valid, slot_valid. rewrite !andb_true_iff, !Z.leb_le. tauto. }
    rewrite <- Hvalid. split.
    + intros Hadj. apply list_elem_of_fmap in Hadj as (slot' & Heq & Hin').
      apply list_elem_of_In, filter_In in Hin' as [_ Hv'].
      assert (slot' = slot) as <-; [|done].
      destruct slot as [s e], slot' as [s' e']. unfold adjust in Heq.
      simpl in Heq. injection Heq as Hs He.
      unfold adjust_start, adjust_end in *.
      f_equal; [destruct (left_open_of closed) | destruct (right_open_of closed)]; lia.
    + intros Hv. apply list_elem_of_fmap. exists slot. split; [done|].
      apply list_elem_of_In, filter_In. split; [by apply list_elem_of_In|done].
  - by rewrite !length_fmap.
  - by rewrite !length_fmap.
  - apply length_filter_le.
Qed.

Lemma validity_filter_min_periods_3 :
  (well_typed 5 3 None (Some 3) ∧ 0 ≤ 5) ∧
  ∃ st out_start out_end,
    swept zero_memory 5 3 None [0; 1; 2; 3; 4] = Ok st ∧
    calculate_variable_window_bounds zero_memory 5 3 None (Some 3) None
      (Some "both"%string) [0; 1; 2; 3; 4] = Ok (out_start, out_end) ∧
    zip out_start out_end
    = (λ slot : Z * Z, (slot.1, slot.2)) <$> List.filter (slot_valid 3) (written st).
Proof.
  split; [split; [repeat split; reflexivity | lia]|].
  destruct (validity_filter zero_memory 5 3 None (Some 3) None (Some "both"%string)
              [0; 1; 2; 3; 4])
    as (st & out_start & out_end & Hst & Hcall & Hzip & Hall & _).
  - repeat split; reflexivity.
  - lia.
  - exists st, out_start, out_end. split; [exact Hst|]. split; [exact Hcall|].
    simpl in Hall. rewrite <- Hall. exact Hzip.
Defined.

(** C3.  An absent [closed] is read as ['left']; [right_open] holds exactly
    when [closed] is neither ['right'] nor ['both'], [left_open] exactly when it
    is neither ['left'] nor ['both'].  The slots are kept or dropped on their
    values before adjustment, and the bounds returned are the kept ones with
    1 taken from every start when [left_open] and 1 added to every end when
    [right_open], nothing else being changed. *)
Theorem boundary_adjustment m N window_size step_size_obj min_periods_obj center closed index :
  well_typed N window_size step_size_obj min_periods_obj → 0 ≤ N →
  closed_or_default None = "left"%string ∧
  (right_open_of closed = true ↔
     closed_or_default closed ≠ "right"%string ∧
     closed_or_default closed ≠ "both"%string) ∧
  (left_open_of closed = true ↔
     closed_or_default closed ≠ "left"%string ∧
     closed_or_default closed ≠ "both"%string) ∧
  ∃ st, swept m N window_size step_size_obj index = Ok st ∧
    let kept := List.filter (slot_valid (default 0 min_periods_obj)) (written st) in
    calculate_variable_window_bounds m N window_size step_size_obj
      min_periods_obj center closed index =
    Ok ((λ s, if left_open_of closed then s - 1 else s) <$> kept.*1,
        (λ e, if right_open_of closed then e + 1 else e) <$> kept.*2).
Proof.
  intros Hty HN. split; [done|].
  split; [apply right_open_of_spec|]. split; [apply left_open_of_spec|].
  destruct (calculate_returns m N window_size step_size_obj min_periods_obj
              center closed index Hty HN) as (st & Hst & _ & _ & Hcall).
  exists st. split; [done|]. exact Hcall.
Qed.

Lemma boundary_adjustment_closed_right :
  (well_typed 5 3 None None ∧ 0 ≤ 5) ∧
  ∃ st, swept zero_memory 5 3 None [0; 1; 2; 3; 4] = Ok st ∧
    calculate_variable_window_bounds zero_memory 5 3 None None None
      (Some "right"%string) [0; 1; 2; 3; 4] =
    Ok ((λ s, s - 1) <$> (List.filter (slot_valid 0) (written st)).*1,
        (λ e, e) <$> (List.filter (slot_valid 0) (written st)).*2).
Proof.
  split; [split; [repeat split; reflexivity | lia]|].
  destruct (boundary_adjustment zero_memory 5 3 None None None (Some "right"%string)
              [0; 1; 2; 3; 4]) as (_ & _ & _ & st & Hst & Hcall).
  - repeat split; reflexivity.
  - lia.
  - exists st. split; [exact Hst | exact Hcall].
Defined.

(** C7.  The two returned sequences have the same length, and every retained
    window, taken before the boundary adjustment, satisfies
    [0 <= start <= end < N]. *)
Theorem retained_bounds_in_range m N window_size step_size_obj min_periods_obj
    center closed index :
  well_typed N window_size step_size_obj min_periods_obj → 0 ≤ N →
  ∃ out_start out_end,
    calculate_variable_window_bounds m N window_size step_size_obj
      min_periods_obj center closed index = Ok (out_start, out_end) ∧
    length out_start = length out_end ∧
    Forall2 (λ s e,
        0 ≤ s + (if left_open_of closed then 1 else 0) ∧
        s + (if left_open_of closed then 1 else 0)
          ≤ e - (if right_open_of closed then 1 else 0) ∧
        e - (if right_open_of closed then 1 else 0) < N)
      out_start out_end.
Proof.
  intros Hty HN.
  destruct (calculate_returns m N window_size step_size_obj min_periods_obj
              center closed index Hty HN) as (st & Hst & Hinv & _ & Hcall).
  eexists _, _. split; [exact Hcall|].
  assert (Hall : Forall2 (λ s e,
        0 ≤ s + (if left_open_of closed then 1 else 0) ∧
        s + (if left_open_of closed then 1 else 0)
          ≤ e - (if right_open_of closed then 1 else 0) ∧
        e - (if right_open_of closed then 1 else 0) < N)
      (adjust_start (left_open_of closed) <$>
         (List.filter (slot_valid (default 0 min_periods_obj)) (written st)).*1)
      (adjust_end (right_open_of closed) <$>
         (List.filter (slot_valid (default 0 min_periods_obj)) (written st)).*2)).
  { apply Forall2_fmap_pair, Forall_forall. intros [s e] Hin.
    apply list_elem_of_In, filter_In in Hin as [Hin Hvalid].
    apply list_elem_of_In in Hin.
    destruct (written_positions _ _ _ _ Hinv Hin) as [_ He]. simpl in He.
    unfold slot_valid in Hvalid. simpl in Hvalid.
    rewrite !andb_true_iff, !Z.leb_le in Hvalid.
    unfold adjust_start, adjust_end. simpl.
    destruct (left_open_of closed), (right_open_of closed); lia. }
  split; [|exact Hall]. by apply Forall2_length in Hall.
Qed.

Lemma retained_bounds_in_range_neither :
  (well_typed 5 3 None None ∧ 0 ≤ 5) ∧
  ∃ out_start out_end,
    calculate_variable_window_bounds zero_memory 5 3 None None None
      (Some "neither"%string) [0; 1; 2; 3; 4] = Ok (out_start, out_end) ∧
    length out_start = length out_end ∧
    Forall2 (λ s e, 0 ≤ s + 1 ∧ s + 1 ≤ e - 1 ∧ e - 1 < 5) out_start out_end.
Proof.
  split; [split; [repeat split; reflexivity | lia]|].
  apply (retained_bounds_in_range zero_memory 5 3 None None None (Some "neither"%string)
           [0; 1; 2; 3; 4]).
  - repeat split; reflexivity.
  - lia.
Defined.

(** C9.  With [1 <= N], every pass of the loop moves [next_index_ei] up by at
    least one (the end found lies at or after it) and [next_index_si] past the
    start just recorded; [window_i] stays at most [N] (and below [N] whenever
    a slot is written), and the loop is left after at most [N] passes. *)
Theorem sweep_terminates_within_N m index N window_size step_size idx_scalar :
  1 ≤ N → N ≤ Int64.max_signed →
  let body := sweep_body m index N window_size step_size idx_scalar in
  let init := sweep_init (start0 N) (end0 m N) in
  (∀ st, reachable m index N window_size step_size idx_scalar init st →
     0 ≤ window_i st ≤ N ∧
     (next_index_ei st < N →
        window_i st < N ∧
        next_index_ei st <
          index_window_i_of m index N window_size idx_scalar
            (next_index_si st) (next_index_ei st) + 1 ∧
        next_index_ei st + 1 ≤ next_index_ei (body st) ∧
        next_index_si st < next_index_si (body st))) ∧
  ∃ (st' : sweep_state) (passes : nat),
    sweep m index N window_size step_size idx_scalar (Z.to_nat N) init = Ok st' ∧
    reachable m index N window_size step_size idx_scalar init st' ∧
    next_index_ei st' = N ∧
    Z.of_nat passes ≤ N ∧ st' = Nat.iter passes body init ∧
    window_i st' = Z.of_nat passes.
Proof.
  intros HN Hfits body init. split.
  - intros st Hreach.
    apply (reachable_inv m index N window_size step_size idx_scalar Hfits (end0 m N))
      in Hreach; [|lia|apply length_end0].
    destruct Hreach as [Hwi Hsi Hei _ _ _ _ _ _].
    split; [lia|]. intros Hlt.
    pose proof (body_positions m index N window_size step_size idx_scalar Hfits
                  st Hwi Hsi Hlt) as (_ & Hs & He & Hw).
    fold body in Hs, He. lia.
  - assert (Hinit : sweep_inv N (end0 m N) init)
      by (apply init_inv; [lia | apply length_end0]).
    destruct (sweep_terminates m index N window_size step_size idx_scalar Hfits
                (end0 m N) (Z.to_nat N) init Hinit) as (st' & Hrun & Hinv & Hend);
      [simpl; lia|].
    destruct (sweep_passes m index N window_size step_size idx_scalar Hfits
                (end0 m N) _ _ _ Hinit Hrun) as (passes & Hle & Hiter & Hwi).
    exists st', passes. split; [done|]. split.
    + eapply sweep_reachable; [|exact Hrun]. constructor.
    + split; [done|]. split; [lia|]. split; [done|]. simpl in Hwi. lia.
Qed.

Lemma sweep_terminates_within_3 :
  (1 ≤ 3 ∧ 3 ≤ Int64.max_signed) ∧
  ∃ (st' : sweep_state) (passes : nat),
    sweep zero_memory [0; 1; 100] 3 2 1 1 3 (sweep_init (start0 3) (end0 zero_memory 3))
      = Ok st' ∧
    next_index_ei st' = 3 ∧ Z.of_nat passes ≤ 3 ∧ window_i st' = Z.of_nat passes.
Proof.
  split; [split; [lia | by vm_compute]|].
  destruct (sweep_terminates_within_N zero_memory [0; 1; 100] 3 2 1 1)
    as (_ & st' & passes & Hrun & _ & Hend & Hle & _ & Hwi).
  - lia.
  - by vm_compute.
  - exists st', passes. repeat split; assumption.
Defined.

(** C10.  When the loop is left, every cell of [start] from [window_i] on
    still holds the sentinel -1; the pair returned is the filter applied to the
    cells written by the loop alone, and it does not depend on what the
    uninitialised cells of the fresh arrays held. *)
Theorem unwritten_slots_never_returned m N window_size step_size_obj min_periods_obj
    center closed index :
  well_typed N window_size step_size_obj min_periods_obj → 0 ≤ N →
  ∃ st, swept m N window_size step_size_obj index = Ok st ∧
    (∀ j : nat, (Z.to_nat (window_i st) ≤ j < Z.to_nat N)%nat →
       start st !! j = Some (-1)) ∧
    calculate_variable_window_bounds m N window_size step_size_obj
      min_periods_obj center closed index =
    Ok (select_windows (take (Z.to_nat (window_i st)) (start st))
          (take (Z.to_nat (window_i st)) (end_ st))
          (default 0 min_periods_obj) (left_open_of closed) (right_open_of closed)) ∧
    ∀ junk : nat → Z,
      calculate_variable_window_bounds {| oob := oob m; uninit := junk |} N window_size
        step_size_obj min_periods_obj center closed index =
      calculate_variable_window_bounds m N window_size step_size_obj
        min_periods_obj center closed index.
Proof.
  intros Hty HN.
  pose proof (proj1 (fits_spec N) (proj1 Hty)) as HNr.
  destruct (calculate_returns m N window_size step_size_obj min_periods_obj
              center closed index Hty HN) as (st & Hst & Hinv & _ & Hcall).
  exists st. split; [done|]. split; [|split].
  - intros j Hj.
    replace j with (Z.to_nat (window_i st) + (j - Z.to_nat (window_i st)))%nat by lia.
    rewrite <- lookup_drop, (inv_unwritten _ _ _ Hinv).
    apply lookup_replicate_2. lia.
  - rewrite Hcall. f_equal.
    pose proof (select_windows_written N
      (take (Z.to_nat (window_i st)) (start st))
      (take (Z.to_nat (window_i st)) (end_ st)) 0 []
      (default 0 min_periods_obj) (left_open_of closed) (right_open_of closed)) as Hsel.
    simpl in Hsel. rewrite !app_nil_r in Hsel. symmetry. apply Hsel.
    + lia.
    + apply (inv_written_start _ _ _ Hinv).
    + apply (inv_written_end _ _ _ Hinv).
    + by rewrite !length_take, (inv_length_start _ _ _ Hinv), (inv_length_end _ _ _ Hinv).
  - intros junk. set (m' := {| oob := oob m; uninit := junk |}).
    destruct (calculate_returns m' N window_size step_size_obj min_periods_obj
                center closed index Hty HN) as (st' & Hst' & Hinv' & _ & Hcall').
    rewrite Hcall', Hcall.
    assert (Hag : agree_written st st'); [|by rewrite (agree_written_slots _ _ Hag)].
    unfold swept in Hst, Hst'.
    change (direction m' index N) with (direction m index N) in Hst'.
    change (sweep m' index N window_size (default 1 step_size_obj) (direction m index N))
      with (sweep m index N window_size (default 1 step_size_obj) (direction m index N))
      in Hst'.
    destruct (sweep_agree m index N window_size (default 1 step_size_obj)
                (direction m index N) ltac:(lia) (end0 m N) (end0 m' N) _ _ _ st
                (init_inv N (end0 m N) HN (length_end0 m N))
                (init_inv N (end0 m' N) HN (length_end0 m' N))
                ltac:(by repeat split) Hst) as (st2 & Hst2 & Hag).
    unfold start0 in Hst'. rewrite Hst' in Hst2. by injection Hst2 as <-.
Qed.

Lemma unwritten_slots_never_returned_any_junk :
  (well_typed 3 2 None None ∧ 0 ≤ 3) ∧
  ∀ junk : nat → Z,
    calculate_variable_window_bounds {| oob := oob zero_memory; uninit := junk |} 3 2
      None None None None [0; 1; 100] =
    calculate_variable_window_bounds zero_memory 3 2 None None None None [0; 1; 100].
Proof.
  split; [split; [repeat split; reflexivity | lia]|].
  destruct (unwritten_slots_never_returned zero_memory 3 2 None None None None
              [0; 1; 100]) as (st & _ & _ & _ & Hjunk).
  - repeat split; reflexivity.
  - lia.
  - exact Hjunk.
Defined.

Lemma calculate_mirrored m N window_size step_size_obj min_periods_obj center closed
    index c :
  well_typed N window_size step_size_obj min_periods_obj →
  Z.of_nat (length index) = N →
  is_ascending index = true → forallb moderate index = true →
  moderate c = true → moderate window_size = true →
  moderate (default 1 step_size_obj) = true →
  calculate_variable_window_bounds m N window_size step_size_obj min_periods_obj
    center closed (mirrored c index)
  = calculate_variable_window_bounds m N window_size step_size_obj min_periods_obj
      center closed index.
Proof.
  intros Hty Hlen Hasc Hidx Hc Hw Hs.
  pose proof (proj1 (fits_spec N) (proj1 Hty)) as HNr.
  apply calculate_same_tests; [done|lia|].
  intros w si j Hwhich Hsi Hj.
  apply (outside_mirrored m index N c Hlen ltac:(lia) Hasc Hidx Hc); [lia| |done..].
  by destruct Hwhich as [-> | ->].
Qed.

Lemma calculate_negated m N window_size step_size_obj min_periods_obj center closed index :
  well_typed N window_size step_size_obj min_periods_obj →
  Z.of_nat (length index) = N →
  is_ascending index = true → forallb negatable index = true →
  direction m (Z.opp <$> index) N = -1 →
  calculate_variable_window_bounds m N window_size step_size_obj min_periods_obj
    center closed (Z.opp <$> index)
  = calculate_variable_window_bounds m N window_size step_size_obj min_periods_obj
      center closed index.
Proof.
  intros Hty Hlen Hasc Hneg Hdir.
  pose proof (proj1 (fits_spec N) (proj1 Hty)) as HNr.
  apply calculate_same_tests; [done|lia|].
  intros w si j _ Hsi Hj.
  apply (outside_negated m index N Hlen ltac:(lia) Hasc Hneg Hdir); [lia|done..].
Qed.

(** C8 (counterexample).  The constant index [2^63 - 2, 2^63 - 2] is
    ascending, and so is its negation, which the code does not find
    descending; with [window_size = 3] the sum [index_window_max] wraps around
    on the first and not on the second, and the two calls return different
    bounds. *)
Lemma direction_invariance_fails_at_range_end :
  is_ascending [9223372036854775806; 9223372036854775806] = true ∧
  forallb Int64.fits [9223372036854775806; 9223372036854775806] = true ∧
  Z.opp <$> [9223372036854775806; 9223372036854775806]
  = [-9223372036854775806; -9223372036854775806] ∧
  calculate_variable_window_bounds zero_memory 2 3 None None None None
    [9223372036854775806; 9223372036854775806] = Ok ([0], [1]) ∧
  calculate_variable_window_bounds zero_memory 2 3 None None None None
    [-9223372036854775806; -9223372036854775806] = Ok ([0], [2]).
Proof. repeat split; by vm_compute. Qed.

(** C8 (amended).  Let [S] be an ascending index of [N] values.  The call on
    [S] returns the valid slots written by its sweep, adjusted.  The call on
    the element-wise negation of [S], when that is the descending sequence
    the code detects (last value below the first), returns with the same
    [window_size] the very same pairs of positions, whatever the magnitudes;
    so does the call on any reflection [c - S] of [S], constant indexes
    included, as long as the values, [c], [window_size] and [step_size] are
    far enough from the ends of the 64-bit range for no sum to wrap.  With
    [S = [0,1,2,3,4]], [c = 4] and [window_size = 2] the latter is the
    descending index [4,3,2,1,0]. *)
Theorem direction_invariance m N window_size step_size_obj min_periods_obj center closed S :
  well_typed N window_size step_size_obj min_periods_obj →
  Z.of_nat (length S) = N →
  is_ascending S = true →
  ∃ st, swept m N window_size step_size_obj S = Ok st ∧
    let kept := List.filter (slot_valid (default 0 min_periods_obj)) (written st) in
    let bounds :=
      (adjust_start (left_open_of closed) <$> kept.*1,
       adjust_end (right_open_of closed) <$> kept.*2) in
    calculate_variable_window_bounds m N window_size step_size_obj min_periods_obj
      center closed S = Ok bounds ∧
    (forallb negatable S = true → direction m (Z.opp <$> S) N = -1 →
     calculate_variable_window_bounds m N window_size step_size_obj min_periods_obj
       center closed (Z.opp <$> S) = Ok bounds) ∧
    (forallb moderate S = true → moderate window_size = true →
     moderate (default 1 step_size_obj) = true →
     ∀ c, moderate c = true →
       calculate_variable_window_bounds m N window_size step_size_obj min_periods_obj
         center closed ((λ x, c - x) <$> S) = Ok bounds).
Proof.
  intros Hty Hlen Hasc.
  pose proof (proj1 (fits_spec N) (proj1 Hty)) as HNr.
  destruct (calculate_returns m N window_size step_size_obj min_periods_obj
              center closed S Hty ltac:(lia)) as (st & Hst & _ & _ & Hcall).
  exists st. split; [done|]. cbv zeta. split; [exact Hcall|]. split.
  - intros Hneg Hdir. rewrite <- Hcall. by apply calculate_negated.
  - intros Hidx Hw Hs c Hc. rewrite <- Hcall. by apply calculate_mirrored.
Qed.

Lemma direction_invariance_descending_4_to_0 :
  (well_typed 5 2 None None ∧ Z.of_nat (length [0; 1; 2; 3; 4]) = 5 ∧
   is_ascending [0; 1; 2; 3; 4] = true ∧
   forallb negatable [0; 1; 2; 3; 4] = true ∧
   direction zero_memory [0; -1; -2; -3; -4] 5 = -1 ∧
   forallb moderate [0; 1; 2; 3; 4] = true ∧
   moderate 4 = true ∧ moderate 2 = true ∧ moderate (default 1 None) = true) ∧
  calculate_variable_window_bounds zero_memory 5 2 None None None None [0; 1; 2; 3; 4]
  = Ok ([0; 1; 2; 3], [2; 3; 4; 5]) ∧
  calculate_variable_window_bounds zero_memory 5 2 None None None None [0; -1; -2; -3; -4]
  = Ok ([0; 1; 2; 3], [2; 3; 4; 5]) ∧
  calculate_variable_window_bounds zero_memory 5 2 None None None None [4; 3; 2; 1; 0]
  = Ok ([0; 1; 2; 3], [2; 3; 4; 5]).
Proof.
  split; [repeat split; reflexivity|].
  destruct (direction_invariance zero_memory 5 2 None None None None [0; 1; 2; 3; 4])
    as (st & _ & Hascending & Hnegated & Hmirrored).
  - repeat split; reflexivity.
  - reflexivity.
  - reflexivity.
  - assert (Hvalue :
      calculate_variable_window_bounds zero_memory 5 2 None None None None
        [0; 1; 2; 3; 4] = Ok ([0; 1; 2; 3], [2; 3; 4; 5])) by (by vm_compute).
    rewrite Hvalue in Hascending. split; [reflexivity|]. split.
    + rewrite Hascending. apply Hnegated; reflexivity.
    + rewrite Hascending. apply (Hmirrored eq_refl eq_refl eq_refl 4 eq_refl).
Defined.

(** C1 (refuted by the code).  On the ascending index [0, 1, 100] with
    [window_size = 2], [step_size = 1], [min_periods = 0] the second retained
    window is, before adjustment, the positions 1..2: it holds the index value
    100, which is 99 units away from the value 1 at its start.  The scan for
    the end of a window starts at [next_index_ei + 1] and so never tests
    position [next_index_ei] against the new window. *)
Theorem containment_fails_after_gap m center :
  is_ascending [0; 1; 100] = true ∧
  direction m [0; 1; 100] 3 = 1 ∧
  calculate_variable_window_bounds m 3 2 (Some 1) (Some 0) center (Some "left"%string)
    [0; 1; 100] = Ok ([0; 1], [2; 3]) ∧
  written_by (swept m 3 2 (Some 1) [0; 1; 100]) = Ok [(0, 1); (1, 2)] ∧
  contained [0; 1; 100] 1 2 (0, 1) = true ∧
  contained [0; 1; 100] 1 2 (1, 2) = false ∧
  [0; 1; 100] !! 2%nat = Some 100 ∧ [0; 1; 100] !! 1%nat = Some 1 ∧ 2 < 1 * (100 - 1).
Proof.
  split; [reflexivity|]. split; [reflexivity|]. split; [by vm_compute|].
  split; by vm_compute.
Qed.

(** C4 (counterexample).  A [closed] that is none of the four tokens, a
    [step_size] of 0, a negative [window_size] and a negative [min_periods]
    are each accepted: the call returns bounds. *)
Lemma invalid_arguments_are_accepted :
  calculate_variable_window_bounds zero_memory 3 2 (Some 1) (Some 0) None
    (Some "sideways"%string) [0; 1; 2] = Ok ([-1; 0], [2; 3]) ∧
  calculate_variable_window_bounds zero_memory 3 2 (Some 0) (Some 0) None
    (Some "left"%string) [0; 1; 2] = Ok ([0; 1], [2; 3]) ∧
  calculate_variable_window_bounds zero_memory 3 (-1) (Some 1) (Some 0) None
    (Some "left"%string) [0; 1; 2] = Ok ([0; 1; 2], [1; 2; 3]) ∧
  calculate_variable_window_bounds zero_memory 3 2 (Some 1) (Some (-1)) None
    (Some "left"%string) [0; 1; 2] = Ok ([0; 1], [2; 3]).
Proof. repeat split; by vm_compute. Qed.

(** C4 (amended).  No argument is validated.  A call whose [closed] is none
    of the four tokens, or whose [step_size] is at most 0, or whose
    [window_size] or [min_periods] is negative, on an index that holds
    [num_values] values and with integers representable as [int64_t], signals
    no error: it runs the sweep and returns a pair of bound sequences; a
    [closed] that is none of the four tokens acts as ['neither']. *)
Theorem no_argument_validation m N window_size step_size_obj min_periods_obj center closed
    index :
  well_typed N window_size step_size_obj min_periods_obj →
  Z.of_nat (length index) = N →
  invalid_arguments closed window_size step_size_obj min_periods_obj →
  (∃ st out_start out_end,
     swept m N window_size step_size_obj index = Ok st ∧
     calculate_variable_window_bounds m N window_size step_size_obj min_periods_obj
       center closed index = Ok (out_start, out_end)) ∧
  (∀ token, closed = Some token →
     token ∉ ["left"%string; "right"%string; "both"%string; "neither"%string] →
     calculate_variable_window_bounds m N window_size step_size_obj min_periods_obj
       center closed index
     = calculate_variable_window_bounds m N window_size step_size_obj min_periods_obj
         center (Some "neither"%string) index).
Proof.
  intros Hty Hlen _.
  assert (HN : 0 ≤ N) by lia.
  destruct (calculate_returns m N window_size step_size_obj min_periods_obj
              center closed index Hty HN) as (st & Hst & _ & _ & Hcall).
  split; [by eexists st, _, _|].
  intros token -> Hnot.
  destruct (calculate_returns m N window_size step_size_obj min_periods_obj
              center (Some "neither"%string) index Hty HN) as (st' & Hst' & _ & _ & ->).
  rewrite Hst in Hst'. injection Hst' as <-. rewrite Hcall.
  assert (Hl : left_open_of (Some token) = true).
  { apply left_open_of_spec. simpl.
    split; intros ->; apply Hnot, list_elem_of_In; simpl; tauto. }
  assert (Hr : right_open_of (Some token) = true).
  { apply right_open_of_spec. simpl.
    split; intros ->; apply Hnot, list_elem_of_In; simpl; tauto. }
  by rewrite Hl, Hr.
Qed.

Lemma no_argument_validation_sideways :
  (well_typed 3 (-1) (Some 0) (Some (-1)) ∧ Z.of_nat (length [0; 1; 2]) = 3 ∧
   invalid_arguments (Some "sideways"%string) (-1) (Some 0) (Some (-1))) ∧
  ∃ st out_start out_end,
    swept zero_memory 3 (-1) (Some 0) [0; 1; 2] = Ok st ∧
    calculate_variable_window_bounds zero_memory 3 (-1) (Some 0) (Some (-1)) None
      (Some "sideways"%string) [0; 1; 2] = Ok (out_start, out_end).
Proof.
  assert (Hinvalid : invalid_arguments (Some "sideways"%string) (-1) (Some 0) (Some (-1)))
    by (right; right; left; lia).
  split; [split; [repeat split; reflexivity | split; [reflexivity | exact Hinvalid]]|].
  apply (no_argument_validation zero_memory 3 (-1) (Some 0) (Some (-1)) None
           (Some "sideways"%string) [0; 1; 2]).
  - repeat split; reflexivity.
  - reflexivity.
  - exact Hinvalid.
Defined.

(** C5 (counterexample).  On [index = [0,1,2,3,4]] with [window_size = 3],
    [step_size = 1], [min_periods = 0] and [closed = 'left'] the returned
    [start] is not [0,1,2,3,4], whatever [end] is paired with it. *)
Lemma scenario_closed_left_has_three_windows :
  ¬ ∃ out_end,
      calculate_variable_window_bounds zero_memory 5 3 (Some 1) (Some 0) None
        (Some "left"%string) [0; 1; 2; 3; 4] = Ok ([0; 1; 2; 3; 4], out_end).
Proof. intros [out_end H]. vm_compute in H. discriminate H. Qed.

(** C5 (amended).  On [index = [0,1,2,3,4]] with [window_size = 3],
    [step_size = 1], [min_periods = 0] and [closed = 'left'], [left_open] is
    false and [right_open] true; the sweep writes the windows [i, i+2] for
    [i = 0, 1, 2] and is left once a window has reached the last position, so
    that the returned [start] is [0,1,2] and the returned [end] is [3,4,5],
    each inclusive end plus 1. *)
Theorem scenario_closed_left m center :
  left_open_of (Some "left"%string) = false ∧
  right_open_of (Some "left"%string) = true ∧
  calculate_variable_window_bounds m 5 3 (Some 1) (Some 0) center (Some "left"%string)
    [0; 1; 2; 3; 4] = Ok ([0; 1; 2], [3; 4; 5]) ∧
  written_by (swept m 5 3 (Some 1) [0; 1; 2; 3; 4])
  = Ok [(0, 0 + 2); (1, 1 + 2); (2, 2 + 2)] ∧
  [0; 1; 2] = [(0, 0 + 2); (1, 1 + 2); (2, 2 + 2)].*1 ∧
  [3; 4; 5] = (λ e, e + 1) <$> [(0, 0 + 2); (1, 1 + 2); (2, 2 + 2)].*2.
Proof.
  split; [reflexivity|]. split; [reflexivity|]. split; [by vm_compute|].
  split; [by vm_compute|]. by split.
Qed.

(** * Further properties of the sweep and of the call *)

(** ** The slots in the order they are written *)

Lemma filter_StronglySorted {A} (R : relation A) (f : A → bool) (l : list A) :
  StronglySorted R l → StronglySorted R (List.filter f l).
Proof.
  induction 1 as [|x l Hl IH Hx]; simpl; [constructor|].
  destruct (f x); [|done]. constructor; [done|].
  apply Forall_forall. intros y Hy.
  apply list_elem_of_In, filter_In in Hy as [Hy _].
  by apply (proj1 (Forall_forall _ _) Hx), list_elem_of_In.
Qed.

Lemma filter_all {A} (f : A → bool) (l : list A) :
  Forall (λ x, f x = true) l → List.filter f l = l.
Proof. induction 1 as [|x l Hx _ IH]; simpl; [done|]. by rewrite Hx, IH. Qed.

Section Written.

Variable m : memory.
Variable index : list Z.
Variables N window_size step_size idx_scalar : Z.
Variable e0 : list Z.
Hypothesis N_fits : N ≤ Int64.max_signed.
Hypothesis N_nonneg : 0 ≤ N.
Hypothesis length_e0 : length e0 = Z.to_nat N.

Local Abbreviation body := (sweep_body m index N window_size step_size idx_scalar).
Local Abbreviation init := (sweep_init (replicate (Z.to_nat N) (-1)) e0).
Local Abbreviation reached :=
  (reachable m index N window_size step_size idx_scalar init).

(** The cursors after a pass, from the two ends found. *)
Lemma body_cursors st :
  0 ≤ next_index_si st ≤ next_index_ei st → next_index_ei st < N →
  next_index_si (body st)
  = index_step_i_of m index N step_size idx_scalar (next_index_si st) + 1 ∧
  next_index_ei (body st)
  = Z.max (next_index_si (body st))
      (index_window_i_of m index N window_size idx_scalar
         (next_index_si st) (next_index_ei st) + 1).
Proof using N_fits.
  clear N_nonneg length_e0.
  intros Hsi Hlt. unfold sweep_body; simpl.
  unfold index_step_i_of, index_window_i_of.
  set (fs := outside _ _ _ (index_step_max_of _ _ _ _ _)).
  set (fw := outside _ _ _ (index_window_max_of _ _ _ _ _)).
  pose proof (for_range_bounds fs (next_index_si st) N ltac:(lia) N_fits) as Hs.
  pose proof (for_range_bounds fw (next_index_ei st) N ltac:(lia) N_fits) as Hw.
  set (si := for_range fs _ _ _) in *. set (wi := for_range fw _ _ _) in *.
  rewrite (succ_position si N), (succ_position wi N) by lia.
  split; [done|]. destruct (Z.gtb_spec (si + 1) (wi + 1)); lia.
Qed.

(** A pass appends one slot: the start cursor and the end it found. *)
Lemma written_body st :
  sweep_inv N e0 st → next_index_ei st < N →
  written (body st)
  = written st ++
    [(next_index_si st,
      index_window_i_of m index N window_size idx_scalar
        (next_index_si st) (next_index_ei st))].
Proof using N_fits.
  clear N_nonneg length_e0.
  intros Hinv Hlt.
  destruct Hinv as [Hwi Hsi Hei Hls Hle _ _ _ _].
  destruct (body_positions m index N window_size step_size idx_scalar N_fits
              st Hwi Hsi Hlt) as (Hk & _).
  unfold written. rewrite Hk.
  replace (Z.to_nat (window_i st + 1)) with (S (Z.to_nat (window_i st))) by lia.
  simpl. rewrite !take_succ_insert by lia.
  rewrite zip_with_app by (rewrite !length_take; lia). done.
Qed.

Lemma written_init : written init = [].
Proof. done. Qed.

Lemma reachable_written_inv st : reached st → written_inv st.
Proof.
  intros Hreach. induction Hreach as [|st Hreach IH Hlt].
  - unfold written_inv. rewrite written_init. split; [constructor|]. split; [constructor|].
    by left.
  - pose proof (reachable_inv m index N window_size step_size idx_scalar N_fits
                  e0 st N_nonneg length_e0 Hreach) as Hinv.
    pose proof Hinv as [Hwi Hsi Hei _ _ _ _ _ _].
    destruct (body_positions m index N window_size step_size idx_scalar N_fits
                st Hwi Hsi Hlt) as (Hk & Hs & He & Hw).
    destruct (body_cursors st ltac:(lia) Hlt) as (_ & Hmax).
    destruct IH as (Hsorted & Hall & Hhead).
    unfold written_inv. rewrite (written_body st Hinv Hlt).
    split; [|split].
    + apply StronglySorted_app. split; [|split; [done|]].
      * intros a b Ha Hb. apply list_elem_of_singleton in Hb as ->.
        destruct (proj1 (Forall_forall _ _) Hall a Ha) as (_ & _ & H1 & H2).
        split; simpl; lia.
      * repeat constructor.
    + apply Forall_app. split.
      * eapply Forall_impl; [exact Hall|]. cbv beta. intros a (? & ? & ? & ?). lia.
      * apply Forall_singleton. cbn [fst snd]. lia.
    + right. destruct Hhead as [Hzero | (e & rest & ->)].
      * assert (window_i st = 0 ∧ next_index_si st = 0) as [Hw0 Hs0] by lia.
        pose proof (length_written _ _ _ Hinv) as Hlen. rewrite Hw0 in Hlen.
        destruct (written st); [|done]. rewrite Hs0. by eexists _, _.
      * by eexists _, _.
Qed.

End Written.

(** The state in which a call leaves the loop, with all that is known of it. *)
Lemma calculate_reached m N window_size step_size_obj min_periods_obj center closed index :
  well_typed N window_size step_size_obj min_periods_obj → 0 ≤ N →
  ∃ st, swept m N window_size step_size_obj index = Ok st ∧
        reachable m index N window_size (default 1 step_size_obj)
          (direction m index N) (sweep_init (start0 N) (end0 m N)) st ∧
        sweep_inv N (end0 m N) st ∧ written_inv st ∧ next_index_ei st = N ∧
        calculate_variable_window_bounds m N window_size step_size_obj
          min_periods_obj center closed index =
        Ok (adjust_start (left_open_of closed) <$>
              (List.filter (slot_valid (default 0 min_periods_obj)) (written st)).*1,
            adjust_end (right_open_of closed) <$>
              (List.filter (slot_valid (default 0 min_periods_obj)) (written st)).*2).
Proof.
  intros Hty HN.
  pose proof (proj1 (fits_spec N) (proj1 Hty)) as HNr.
  destruct (calculate_returns m N window_size step_size_obj min_periods_obj
              center closed index Hty HN) as (st & Hst & Hinv & Hei & Hcall).
  exists st. split; [done|].
  assert (Hreach : reachable m index N window_size (default 1 step_size_obj)
            (direction m index N) (sweep_init (start0 N) (end0 m N)) st).
  { eapply sweep_reachable; [|exact Hst]. constructor. }
  split; [done|]. split; [done|]. split; [|by split].
  apply (reachable_written_inv m index N window_size (default 1 step_size_obj)
           (direction m index N) (end0 m N)); [lia | done | apply length_end0 | done].
Qed.

(** X1.  The returned starts are strictly increasing, and so are the returned
    ends; there are at most [N] of each. *)
Theorem returned_bounds_strictly_increase m N window_size step_size_obj min_periods_obj
    center closed index :
  well_typed N window_size step_size_obj min_periods_obj → 0 ≤ N →
  ∃ out_start out_end,
    calculate_variable_window_bounds m N window_size step_size_obj
      min_periods_obj center closed index = Ok (out_start, out_end) ∧
    StronglySorted Z.lt out_start ∧ StronglySorted Z.lt out_end ∧
    Z.of_nat (length out_start) ≤ N ∧ Z.of_nat (length out_end) ≤ N.
Proof.
  intros Hty HN.
  destruct (calculate_reached m N window_size step_size_obj min_periods_obj
              center closed index Hty HN)
    as (st & _ & _ & Hinv & (Hsorted & _ & _) & Hend & Hcall).
  eexists _, _. split; [exact Hcall|].
  pose proof (filter_StronglySorted slot_lt (slot_valid (default 0 min_periods_obj))
                _ Hsorted) as Hkept.
  pose proof (length_filter_le (slot_valid (default 0 min_periods_obj)) (written st)).
  pose proof (length_written _ _ _ Hinv).
  pose proof (inv_window_i _ _ _ Hinv). pose proof (inv_si_ei _ _ _ Hinv).
  split; [|split; [|rewrite !length_fmap; lia]].
  - rewrite <- list_fmap_compose.
    eapply StronglySorted_fmap; [|exact Hkept].
    intros a b [Hab _]. unfold adjust_start. simpl.
    destruct (left_open_of closed); lia.
  - rewrite <- list_fmap_compose.
    eapply StronglySorted_fmap; [|exact Hkept].
    intros a b [_ Hab]. unfold adjust_end. simpl.
    destruct (right_open_of closed); lia.
Qed.

Lemma returned_bounds_strictly_increase_on_gap :
  (well_typed 3 2 None None ∧ 0 ≤ 3) ∧
  ∃ out_start out_end,
    calculate_variable_window_bounds zero_memory 3 2 None None None None [0; 1; 100]
      = Ok (out_start, out_end) ∧
    StronglySorted Z.lt out_start ∧ StronglySorted Z.lt out_end.
Proof.
  split; [split; [repeat split; reflexivity | lia]|].
  destruct (returned_bounds_strictly_increase zero_memory 3 2 None None None None
              [0; 1; 100]) as (out_start & out_end & Hcall & Hs & He & _).
  - repeat split; reflexivity.
  - lia.
  - exists out_start, out_end. split; [exact Hcall|]. split; [exact Hs | exact He].
Defined.

(** X2.  Every slot the sweep writes has [0 <= start <= end]: with
    [min_periods <= 1] (in particular when it is absent) the filter drops
    nothing, and the call returns one window per pass of the loop. *)
Theorem nothing_dropped_without_min_periods m N window_size step_size_obj min_periods_obj
    center closed index :
  well_typed N window_size step_size_obj min_periods_obj → 0 ≤ N →
  default 0 min_periods_obj ≤ 1 →
  ∃ st, swept m N window_size step_size_obj index = Ok st ∧
    Forall (λ slot, 0 ≤ slot.1 ∧ slot.1 ≤ slot.2 ∧ slot.2 < N) (written st) ∧
    calculate_variable_window_bounds m N window_size step_size_obj
      min_periods_obj center closed index =
    Ok (adjust_start (left_open_of closed) <$> (written st).*1,
        adjust_end (right_open_of closed) <$> (written st).*2) ∧
    length (written st) = Z.to_nat (window_i st).
Proof.
  intros Hty HN Hmp.
  destruct (calculate_reached m N window_size step_size_obj min_periods_obj
              center closed index Hty HN)
    as (st & Hst & _ & Hinv & (_ & Hall & _) & Hend & Hcall).
  exists st. split; [done|].
  assert (Hpos : Forall (λ slot, 0 ≤ slot.1 ∧ slot.1 ≤ slot.2 ∧ slot.2 < N) (written st)).
  { eapply Forall_impl; [exact Hall|]. cbv beta. intros a (? & ? & ? & ?). lia. }
  split; [done|]. split; [|by eapply length_written].
  rewrite Hcall, filter_all; [done|].
  eapply Forall_impl; [exact Hpos|]. cbv beta. intros [s e] (? & ? & ?).
  unfold slot_valid. simpl in *. rewrite !andb_true_iff, !Z.leb_le. lia.
Qed.

Lemma nothing_dropped_without_min_periods_on_gap :
  (well_typed 3 2 None None ∧ 0 ≤ 3 ∧ default 0 None ≤ 1) ∧
  ∃ st, swept zero_memory 3 2 None [0; 1; 100] = Ok st ∧
    calculate_variable_window_bounds zero_memory 3 2 None None None
      (Some "both"%string) [0; 1; 100] =
    Ok ((λ s, s) <$> (written st).*1, (λ e, e) <$> (written st).*2).
Proof.
  split; [split; [repeat split; reflexivity | split; [lia | simpl; lia]]|].
  destruct (nothing_dropped_without_min_periods zero_memory 3 2 None None None
              (Some "both"%string) [0; 1; 100]) as (st & Hst & _ & Hcall & _).
  - repeat split; reflexivity.
  - lia.
  - simpl. lia.
  - exists st. split; [exact Hst | exact Hcall].
Defined.

(** X3.  On a non-empty index with [min_periods <= 1] the result is never
    empty: its first window starts at position 0 (reported as -1 when
    [left_open]) and ends at a position of the index. *)
Theorem first_window_starts_at_zero m N window_size step_size_obj min_periods_obj
    center closed index :
  well_typed N window_size step_size_obj min_periods_obj → 1 ≤ N →
  default 0 min_periods_obj ≤ 1 →
  ∃ e rest_start rest_end,
    calculate_variable_window_bounds m N window_size step_size_obj
      min_periods_obj center closed index =
    Ok ((if left_open_of closed then -1 else 0) :: rest_start,
        (if right_open_of closed then e + 1 else e) :: rest_end) ∧
    0 ≤ e < N.
Proof.
  intros Hty HN Hmp.
  destruct (calculate_reached m N window_size step_size_obj min_periods_obj
              center closed index Hty ltac:(lia))
    as (st & Hst & _ & Hinv & (_ & Hall & Hhead) & Hend & Hcall).
  destruct Hhead as [Hzero | (e & rest & Hw)]; [lia|].
  rewrite Hw in Hall, Hcall. apply Forall_cons in Hall as [(H0 & Hse & _ & He) _].
  simpl in H0, Hse, He.
  exists e. eexists _, _. split; [|lia].
  rewrite Hcall. cbn [List.filter].
  replace (slot_valid (default 0 min_periods_obj) (0, e)) with true.
  - cbn [fmap list_fmap fst snd]. unfold adjust_start, adjust_end. reflexivity.
  - symmetry. unfold slot_valid. simpl. rewrite !andb_true_iff, !Z.leb_le. lia.
Qed.

Lemma first_window_starts_at_zero_on_gap :
  (well_typed 3 2 None None ∧ 1 ≤ 3 ∧ default 0 None ≤ 1) ∧
  ∃ e rest_start rest_end,
    calculate_variable_window_bounds zero_memory 3 2 None None None
      (Some "neither"%string) [0; 1; 100] =
    Ok (-1 :: rest_start, (e + 1) :: rest_end) ∧ 0 ≤ e < 3.
Proof.
  split; [split; [repeat split; reflexivity | split; [lia | simpl; lia]]|].
  apply (first_window_starts_at_zero zero_memory 3 2 None None None
           (Some "neither"%string) [0; 1; 100]).
  - repeat split; reflexivity.
  - lia.
  - simpl. lia.
Defined.

(** ** Reads stay inside the index *)

(** Two runs on two machines whose tests have the same answers. *)
Section AcrossMemories.

Variables m1 m2 : memory.
Variables index1 index2 : list Z.
Variables N window_size step_size scalar1 scalar2 : Z.
Hypothesis N_fits : N ≤ Int64.max_signed.
Hypothesis same_tests : ∀ w si j,
  w = window_size ∨ w = step_size → 0 ≤ si < N → 0 ≤ j < N →
  outside m1 index1 scalar1
    (Int64.add (getitem m1 index1 si) (Int64.mul scalar1 (Int64.sub w 1))) j
  = outside m2 index2 scalar2
      (Int64.add (getitem m2 index2 si) (Int64.mul scalar2 (Int64.sub w 1))) j.

Lemma body_across e0 st :
  sweep_inv N e0 st → next_index_ei st < N →
  sweep_body m1 index1 N window_size step_size scalar1 st
  = sweep_body m2 index2 N window_size step_size scalar2 st.
Proof.
  intros [Hwi Hsi Hei _ _ _ _ _ _] Hlt.
  assert (Hstep :
    index_step_i_of m1 index1 N step_size scalar1 (next_index_si st)
    = index_step_i_of m2 index2 N step_size scalar2 (next_index_si st)).
  { apply for_range_ext; [lia|done|]. intros j Hj.
    apply same_tests; [by right|lia..]. }
  assert (Hwin :
    index_window_i_of m1 index1 N window_size scalar1
      (next_index_si st) (next_index_ei st)
    = index_window_i_of m2 index2 N window_size scalar2
        (next_index_si st) (next_index_ei st)).
  { apply for_range_ext; [lia|done|]. intros j Hj.
    apply same_tests; [by left|lia..]. }
  unfold sweep_body. by rewrite Hstep, Hwin.
Qed.

Lemma sweep_across e0 fuel st :
  sweep_inv N e0 st →
  sweep m1 index1 N window_size step_size scalar1 fuel st
  = sweep m2 index2 N window_size step_size scalar2 fuel st.
Proof.
  revert st. induction fuel as [|fuel IH]; intros st Hinv; simpl; [done|].
  destruct (Z.ltb_spec (next_index_ei st) N) as [Hlt|Hge]; [|done].
  rewrite (body_across e0) by done. apply IH.
  rewrite <- (body_across e0) by done. by apply body_inv.
Qed.

End AcrossMemories.

Lemma getitem_any_memory m1 m2 index i :
  0 ≤ i < Z.of_nat (length index) → getitem m1 index i = getitem m2 index i.
Proof.
  intros Hi. destruct (lookup_lt_is_Some_2 index (Z.to_nat i)) as [x Hx]; [lia|].
  by rewrite (getitem_inside m1 index i x), (getitem_inside m2 index i x) by (done || lia).
Qed.

Lemma direction_any_memory m1 m2 index N :
  Z.of_nat (length index) = N → 1 ≤ N → N ≤ Int64.max_signed →
  direction m1 index N = direction m2 index N.
Proof.
  intros Hlen HN Hfits. unfold direction. rewrite (pred_position N N) by lia.
  by rewrite (getitem_any_memory m1 m2 index (N - 1)),
    (getitem_any_memory m1 m2 index 0) by lia.
Qed.

(** X5.  When the index holds [num_values] values, the outcome of the call is
    the same whatever lies in memory around the index and in the fresh
    arrays: the sweep reads the index only at positions it has, and no cell
    is returned that was not written. *)
Theorem outcome_does_not_depend_on_memory m1 m2 N window_size step_size_obj
    min_periods_obj center closed index :
  well_typed N window_size step_size_obj min_periods_obj →
  Z.of_nat (length index) = N →
  calculate_variable_window_bounds m1 N window_size step_size_obj
    min_periods_obj center closed index
  = calculate_variable_window_bounds m2 N window_size step_size_obj
      min_periods_obj center closed index.
Proof.
  intros Hty Hlen.
  pose proof (proj1 (fits_spec N) (proj1 Hty)) as HNr.
  assert (HN : 0 ≤ N) by lia.
  destruct (calculate_returns m1 N window_size step_size_obj min_periods_obj
              center closed index Hty HN) as (st1 & Hst1 & _ & _ & ->).
  destruct (calculate_returns m2 N window_size step_size_obj min_periods_obj
              center closed index Hty HN) as (st2 & Hst2 & _ & _ & ->).
  assert (Hag : agree_written st1 st2); [|by rewrite (agree_written_slots _ _ Hag)].
  unfold swept in Hst1, Hst2.
  rewrite (sweep_across m1 m2 index index N window_size (default 1 step_size_obj)
             (direction m1 index N) (direction m2 index N) ltac:(lia)) with
    (e0 := end0 m1 N) in Hst1.
  - destruct (sweep_agree m2 index N window_size (default 1 step_size_obj)
                (direction m2 index N) ltac:(lia) (end0 m1 N) (end0 m2 N) _ _ _ st1
                (init_inv N (end0 m1 N) HN (length_end0 m1 N))
                (init_inv N (end0 m2 N) HN (length_end0 m2 N))
                ltac:(by repeat split) Hst1) as (st2' & Hst2' & Hag).
    unfold start0 in Hst2. rewrite Hst2 in Hst2'. by injection Hst2' as <-.
  - intros w si j _ Hsi Hj.
    rewrite (direction_any_memory m1 m2 index N) by (done || lia).
    unfold outside.
    by rewrite (getitem_any_memory m1 m2 index si), (getitem_any_memory m1 m2 index j)
      by lia.
  - apply init_inv; [done | apply length_end0].
Qed.

Lemma outcome_does_not_depend_on_memory_on_gap :
  (well_typed 3 2 None None ∧ Z.of_nat (length [0; 1; 100]) = 3) ∧
  ∀ m : memory,
    calculate_variable_window_bounds m 3 2 None None None None [0; 1; 100]
    = calculate_variable_window_bounds zero_memory 3 2 None None None None [0; 1; 100].
Proof.
  split; [split; [repeat split; reflexivity | reflexivity]|].
  intros m.
  apply (outcome_does_not_depend_on_memory m zero_memory 3 2 None None None None
           [0; 1; 100]).
  - repeat split; reflexivity.
  - reflexivity.
Defined.

(** ** What the two scans find *)

Lemma last_inside_spec f trips i N :
  0 ≤ i → i + Z.of_nat trips = N → N ≤ Int64.max_signed →
  (∀ j, i ≤ j ≤ last_inside f trips i (N - 1) → f j = false) ∧
  (last_inside f trips i (N - 1) + 1 < N →
   f (last_inside f trips i (N - 1) + 1) = true).
Proof.
  revert i. induction trips as [|trips IH]; intros i Hi Hn HN; simpl.
  - split; intros; lia.
  - destruct (f i) eqn:Hfi.
    + rewrite (pred_position i N) by lia. split.
      * intros j Hj. lia.
      * intros _. by replace (i - 1 + 1) with i by lia.
    + rewrite (succ_position i N) by lia.
      destruct (IH (i + 1) ltac:(lia) ltac:(lia) HN) as [Hin Hout].
      split; [|done]. intros j Hj.
      destruct (decide (j = i)) as [->|Hne]; [done|]. apply Hin. lia.
Qed.

(** The scan started right after [p] ends at the last position before the
    first one at which the test holds, or at the last position of all. *)
Lemma for_range_spec f p N :
  0 ≤ p < N → N ≤ Int64.max_signed →
  let r := for_range f (Int64.add p 1) N (Int64.sub N 1) in
  p ≤ r < N ∧ (∀ j, p < j ≤ r → f j = false) ∧ (r + 1 < N → f (r + 1) = true).
Proof.
  intros Hp HN r. pose proof (for_range_bounds f p N Hp HN) as Hr. fold r in Hr.
  split; [lia|]. unfold r, for_range in *.
  rewrite (succ_position p N), (pred_position N N) in * by lia.
  destruct (last_inside_spec f (Z.to_nat (N - (p + 1))) (p + 1) N
              ltac:(lia) ltac:(lia) HN) as [Hin Hout].
  split; [|done]. intros j Hj. apply Hin. lia.
Qed.

(** X6.  In every pass of the loop, the end recorded for the window is the
    last position before the first one, counted from [next_index_ei + 1],
    that tests outside the window (or the last position of the index when
    none does), and the next start is the first position after the recorded
    start that tests outside the step (or [N]). *)
Theorem pass_finds_first_outside m index N window_size step_size idx_scalar st :
  0 ≤ N → N ≤ Int64.max_signed →
  reachable m index N window_size step_size idx_scalar
    (sweep_init (start0 N) (end0 m N)) st →
  next_index_ei st < N →
  let index_si := next_index_si st in
  let index_window_i :=
    index_window_i_of m index N window_size idx_scalar index_si (next_index_ei st) in
  let st' := sweep_body m index N window_size step_size idx_scalar st in
  let outside_window :=
    outside m index idx_scalar (index_window_max_of m index window_size idx_scalar index_si) in
  let outside_step :=
    outside m index idx_scalar (index_step_max_of m index step_size idx_scalar index_si) in
  next_index_ei st ≤ index_window_i < N ∧
  (∀ j, next_index_ei st < j ≤ index_window_i → outside_window j = false) ∧
  (index_window_i + 1 < N → outside_window (index_window_i + 1) = true) ∧
  index_si < next_index_si st' ≤ N ∧
  (∀ j, index_si < j < next_index_si st' → outside_step j = false) ∧
  (next_index_si st' < N → outside_step (next_index_si st') = true).
Proof.
  intros HN Hfits Hreach Hlt.
  apply (reachable_inv m index N window_size step_size idx_scalar Hfits (end0 m N))
    in Hreach; [|done|apply length_end0].
  destruct Hreach as [Hwi Hsi Hei _ _ _ _ _ _]. cbv zeta.
  destruct (body_cursors m index N window_size step_size idx_scalar Hfits st
              ltac:(lia) Hlt) as (-> & _).
  unfold index_window_i_of, index_step_i_of.
  destruct (for_range_spec
              (outside m index idx_scalar
                 (index_window_max_of m index window_size idx_scalar (next_index_si st)))
              (next_index_ei st) N ltac:(lia) Hfits) as (Hw1 & Hw2 & Hw3).
  destruct (for_range_spec
              (outside m index idx_scalar
                 (index_step_max_of m index step_size idx_scalar (next_index_si st)))
              (next_index_si st) N ltac:(lia) Hfits) as (Hs1 & Hs2 & Hs3).
  split; [done|]. split; [done|]. split; [done|]. split; [lia|].
  split; [|done]. intros j Hj. apply Hs2. lia.
Qed.

Lemma pass_finds_first_outside_first_pass :
  (0 ≤ 3 ∧ 3 ≤ Int64.max_signed ∧
   reachable zero_memory [0; 1; 100] 3 2 1 1
     (sweep_init (start0 3) (end0 zero_memory 3))
     (sweep_init (start0 3) (end0 zero_memory 3)) ∧
   next_index_ei (sweep_init (start0 3) (end0 zero_memory 3)) < 3) ∧
  0 ≤ index_window_i_of zero_memory [0; 1; 100] 3 2 1 0 0 < 3 ∧
  (index_window_i_of zero_memory [0; 1; 100] 3 2 1 0 0 + 1 < 3 →
   outside zero_memory [0; 1; 100] 1
     (index_window_max_of zero_memory [0; 1; 100] 2 1 0)
     (index_window_i_of zero_memory [0; 1; 100] 3 2 1 0 0 + 1) = true).
Proof.
  split; [split; [lia | split; [by vm_compute | split; [constructor | simpl; lia]]]|].
  destruct (pass_finds_first_outside zero_memory [0; 1; 100] 3 2 1 1
              (sweep_init (start0 3) (end0 zero_memory 3)))
    as (Hrange & _ & Hout & _).
  - lia.
  - by vm_compute.
  - constructor.
  - simpl. lia.
  - split; [exact Hrange | exact Hout].
Defined.

(** ** Steps at least as long as the window *)

Lemma for_range_mono f g p N :
  0 ≤ p < N → N ≤ Int64.max_signed →
  (∀ j, p < j < N → g j = true → f j = true) →
  for_range f (Int64.add p 1) N (Int64.sub N 1)
  ≤ for_range g (Int64.add p 1) N (Int64.sub N 1).
Proof.
  intros Hp HN Hgf.
  destruct (for_range_spec f p N Hp HN) as (Hf1 & Hf2 & _).
  destruct (for_range_spec g p N Hp HN) as (Hg1 & _ & Hg3).
  set (rf := for_range f _ _ _) in *. set (rg := for_range g _ _ _) in *.
  destruct (decide (rf ≤ rg)) as [|Hgt]; [done|].
  assert (Hg : g (rg + 1) = true) by (apply Hg3; lia).
  apply Hgf in Hg; [|lia]. rewrite Hf2 in Hg; [done|lia].
Qed.

Section Tumbling.

Variable m : memory.
Variable index : list Z.
Variables N window_size step_size : Z.
Hypothesis length_index : Z.of_nat (length index) = N.
Hypothesis N_fits : N ≤ Int64.max_signed.
Hypothesis ascending : is_ascending index = true.
Hypothesis moderate_index : forallb moderate index = true.
Hypothesis moderate_window : moderate window_size = true.
Hypothesis moderate_step : moderate step_size = true.
Hypothesis step_covers_window : window_size ≤ step_size.

Local Abbreviation scalar := (direction m index N).
Local Abbreviation body := (sweep_body m index N window_size step_size scalar).
Local Abbreviation init := (sweep_init (start0 N) (end0 m N)).
Local Abbreviation reached := (reachable m index N window_size step_size scalar init).

(** The test of the sweep, in plain arithmetic. *)
Lemma outside_ascending w si j :
  moderate w = true → 0 ≤ si < N → 0 ≤ j < N →
  outside m index scalar
    (Int64.add (getitem m index si) (Int64.mul scalar (Int64.sub w 1))) j
  = (getitem m index j >? getitem m index si + (w - 1)).
Proof using length_index N_fits ascending moderate_index.
  clear moderate_window moderate_step step_covers_window.
  intros Hw Hsi Hj. rewrite (direction_of_ascending m index N) by (done || lia).
  apply moderate_spec in Hw.
  assert (Hmax : Int64.max_signed = 2 ^ 63 - 1) by reflexivity.
  assert (Hmin : Int64.min_signed = - 2 ^ 63) by reflexivity.
  assert (H61 : 2 ^ 63 = 4 * 2 ^ 61) by reflexivity.
  destruct (index_inside m index N 0 length_index moderate_index si Hsi)
    as (y & _ & Hy & -> & _).
  unfold outside.
  destruct (index_inside m index N 0 length_index moderate_index j Hj)
    as (x & _ & Hx & -> & _).
  rewrite (sub_small w 1) by lia.
  rewrite (mul_small 1 (w - 1)) by lia.
  rewrite (add_small y) by lia.
  rewrite !mul_small by lia.
  by replace (1 * x) with x by lia; replace (1 * (y + 1 * (w - 1))) with (y + (w - 1)) by lia.
Qed.

Lemma tumbling_pass st :
  sweep_inv N (end0 m N) st → next_index_si st = next_index_ei st →
  next_index_ei st < N →
  next_index_si (body st) = next_index_ei (body st) ∧
  exact_window m index N window_size
    (next_index_si st,
     index_window_i_of m index N window_size scalar (next_index_si st) (next_index_ei st)).
Proof.
  intros [Hwi Hsi Hei _ _ _ _ _ _] Heq Hlt.
  destruct (body_cursors m index N window_size step_size scalar N_fits st
              ltac:(lia) Hlt) as (Hs' & He').
  unfold index_window_i_of, index_step_i_of in *. rewrite <- Heq in *.
  set (fw := outside m index scalar
               (index_window_max_of m index window_size scalar (next_index_si st))) in *.
  set (fs := outside m index scalar
               (index_step_max_of m index step_size scalar (next_index_si st))) in *.
  destruct (for_range_spec fw (next_index_si st) N ltac:(lia) N_fits) as (Hw1 & Hw2 & Hw3).
  assert (Hmono : for_range fw (Int64.add (next_index_si st) 1) N (Int64.sub N 1)
                  ≤ for_range fs (Int64.add (next_index_si st) 1) N (Int64.sub N 1)).
  { apply for_range_mono; [lia|done|]. intros j Hj. unfold fs, fw.
    unfold index_step_max_of, index_window_max_of.
    rewrite !outside_ascending by (done || lia).
    intros H. apply Z.gtb_gt in H. apply Z.gtb_gt. lia. }
  split; [lia|]. split; cbn [fst snd].
  - intros p Hp. specialize (Hw2 p Hp). unfold fw, index_window_max_of in Hw2.
    rewrite outside_ascending in Hw2 by (done || lia).
    destruct (Z.gtb_spec (getitem m index p)
                (getitem m index (next_index_si st) + (window_size - 1))); [done|lia].
  - intros Hnext. specialize (Hw3 Hnext).
    set (e := for_range fw _ _ _) in *.
    unfold fw, index_window_max_of in Hw3.
    rewrite outside_ascending in Hw3 by (done || lia).
    apply Z.gtb_gt in Hw3. lia.
Qed.

Lemma reachable_tumbling st :
  0 ≤ N → reached st →
  next_index_si st = next_index_ei st ∧
  Forall (exact_window m index N window_size) (written st) ∧
  StronglySorted apart (written st).
Proof.
  intros HN Hreach. induction Hreach as [|st Hreach IH Hlt].
  - split; [done|]. split; constructor.
  - pose proof (reachable_inv m index N window_size step_size scalar N_fits
                  (end0 m N) st HN (length_end0 m N) Hreach) as Hinv.
    pose proof (reachable_written_inv m index N window_size step_size scalar
                  (end0 m N) N_fits HN (length_end0 m N) st Hreach)
      as (_ & Hall & _).
    destruct IH as (Heq & Hexact & Hapart).
    destruct (tumbling_pass st Hinv Heq Hlt) as (Heq' & Hnew).
    split; [done|].
    rewrite (written_body m index N window_size step_size scalar (end0 m N) N_fits
               st Hinv Hlt).
    split.
    + apply Forall_app. split; [done|]. by apply Forall_singleton.
    + apply StronglySorted_app. split; [|split; [done|repeat constructor]].
      intros a b Ha Hb. apply list_elem_of_singleton in Hb as ->.
      destruct (proj1 (Forall_forall _ _) Hall a Ha) as (_ & _ & _ & H2).
      unfold apart. simpl. lia.
Qed.

End Tumbling.

(** X7.  On an ascending index (values, [window_size] and [step_size] away
    from the ends of the 64-bit range) with [step_size >= window_size], every
    window the sweep writes is exact: past its first position it holds
    precisely the positions whose value is at most [window_size - 1] units
    above the value at its start, and the windows do not overlap. *)
Theorem windows_exact_when_step_covers_window m N window_size step_size_obj
    min_periods_obj center closed index :
  well_typed N window_size step_size_obj min_periods_obj →
  Z.of_nat (length index) = N →
  is_ascending index = true → forallb moderate index = true →
  moderate window_size = true → moderate (default 1 step_size_obj) = true →
  window_size ≤ default 1 step_size_obj →
  ∃ st, swept m N window_size step_size_obj index = Ok st ∧
    calculate_variable_window_bounds m N window_size step_size_obj
      min_periods_obj center closed index =
    Ok (adjust_start (left_open_of closed) <$>
          (List.filter (slot_valid (default 0 min_periods_obj)) (written st)).*1,
        adjust_end (right_open_of closed) <$>
          (List.filter (slot_valid (default 0 min_periods_obj)) (written st)).*2) ∧
    Forall (exact_window m index N window_size) (written st) ∧
    StronglySorted apart (written st).
Proof.
  intros Hty Hlen Hasc Hidx Hw Hs Hle.
  pose proof (proj1 (fits_spec N) (proj1 Hty)) as HNr.
  destruct (calculate_reached m N window_size step_size_obj min_periods_obj
              center closed index Hty ltac:(lia))
    as (st & Hst & Hreach & _ & _ & _ & Hcall).
  exists st. split; [done|]. split; [done|].
  destruct (reachable_tumbling m index N window_size (default 1 step_size_obj)
              Hlen ltac:(lia) Hasc Hidx Hw Hs Hle st ltac:(lia) Hreach)
    as (_ & Hexact & Hapart).
  by split.
Qed.

Lemma windows_exact_when_step_covers_window_on_gap :
  (well_typed 3 2 (Some 2) None ∧ Z.of_nat (length [0; 1; 100]) = 3 ∧
   is_ascending [0; 1; 100] = true ∧ forallb moderate [0; 1; 100] = true ∧
   moderate 2 = true ∧ moderate (default 1 (Some 2)) = true ∧
   2 ≤ default 1 (Some 2)) ∧
  ∃ st, swept zero_memory 3 2 (Some 2) [0; 1; 100] = Ok st ∧
    Forall (exact_window zero_memory [0; 1; 100] 3 2) (written st) ∧
    StronglySorted apart (written st).
Proof.
  split; [repeat split; (reflexivity || (simpl; lia))|].
  destruct (windows_exact_when_step_covers_window zero_memory 3 2 (Some 2) None None
              None [0; 1; 100]) as (st & Hst & _ & Hexact & Hapart).
  - repeat split; reflexivity.
  - reflexivity.
  - reflexivity.
  - reflexivity.
  - reflexivity.
  - reflexivity.
  - simpl. lia.
  - exists st. split; [exact Hst|]. split; [exact Hexact | exact Hapart].
Defined.

(** ** Increasing indexes swept with step 1 *)

Lemma is_strictly_ascending_next l i x y :
  is_strictly_ascending l = true → l !! i = Some x → l !! S i = Some y → x < y.
Proof.
  revert i. induction l as [|a l IH]; intros i Hasc Hx Hy; [done|].
  destruct l as [|b l]; [by destruct i|].
  simpl in Hasc. apply andb_true_iff in Hasc as [Hab Hl]. apply Z.ltb_lt in Hab.
  destruct i as [|i]; simpl in Hx, Hy.
  - injection Hx as <-. injection Hy as <-. done.
  - by apply (IH i).
Qed.

Lemma is_strictly_ascending_ascending l :
  is_strictly_ascending l = true → is_ascending l = true.
Proof.
  induction l as [|a l IH]; [done|]. destruct l as [|b l]; [done|].
  intros Hasc. simpl in Hasc. apply andb_true_iff in Hasc as [Hab Hl].
  apply Z.ltb_lt in Hab. change (is_ascending (a :: b :: l))
    with ((a <=? b) && is_ascending (b :: l)).
  apply andb_true_iff. split; [apply Z.leb_le; lia | by apply IH].
Qed.

Section UnitStep.

Variable m : memory.
Variable index : list Z.
Variables N window_size : Z.
Hypothesis length_index : Z.of_nat (length index) = N.
Hypothesis N_fits : N ≤ Int64.max_signed.
Hypothesis increasing : is_strictly_ascending index = true.
Hypothesis typed_index : forallb Int64.fits index = true.

Local Abbreviation scalar := (direction m index N).
Local Abbreviation body := (sweep_body m index N window_size 1 scalar).
Local Abbreviation init := (sweep_init (start0 N) (end0 m N)).
Local Abbreviation reached := (reachable m index N window_size 1 scalar init).

(** With step 1 the next window starts at the next position. *)
Lemma unit_step si :
  0 ≤ si < N → index_step_i_of m index N 1 scalar si = si.
Proof.
  intros Hsi. unfold index_step_i_of.
  set (fs := outside m index scalar (index_step_max_of m index 1 scalar si)).
  destruct (for_range_spec fs si N Hsi N_fits) as (Hr & Hin & _).
  set (r := for_range fs _ _ _) in *.
  destruct (decide (r = si)) as [|Hne]; [done|]. exfalso.
  assert (Hfalse : fs (si + 1) = false) by (apply Hin; lia).
  unfold fs, outside, index_step_max_of in Hfalse.
  rewrite (direction_of_ascending m index N) in Hfalse
    by (done || lia || by apply is_strictly_ascending_ascending).
  destruct (lookup_lt_is_Some_2 index (Z.to_nat si)) as [x Hx]; [lia|].
  destruct (lookup_lt_is_Some_2 index (S (Z.to_nat si))) as [y Hy]; [lia|].
  pose proof (is_strictly_ascending_next index _ x y increasing Hx Hy) as Hxy.
  rewrite (getitem_inside m index si x) in Hfalse by (done || lia).
  rewrite (getitem_inside m index (si + 1) y) in Hfalse
    by (lia || by replace (Z.to_nat (si + 1)) with (S (Z.to_nat si)) by lia).
  assert (Hfx : Int64.fits x = true).
  { apply (proj1 (forallb_forall _ _) typed_index).
    apply list_elem_of_In. by eapply list_elem_of_lookup_2. }
  assert (Hfy : Int64.fits y = true).
  { apply (proj1 (forallb_forall _ _) typed_index).
    apply list_elem_of_In. by eapply list_elem_of_lookup_2. }
  apply fits_spec in Hfx, Hfy.
  change (Int64.mul 1 (Int64.sub 1 1)) with 0 in Hfalse.
  rewrite (add_small x 0), (mul_small 1 y), (mul_small 1 (x + 0)) in Hfalse by lia.
  destruct (Z.gtb_spec (1 * y) (1 * (x + 0))); [done|lia].
Qed.

Lemma reachable_unit_step st :
  0 ≤ N → reached st →
  next_index_si st = window_i st ∧ (written st).*1 = seqZ 0 (window_i st).
Proof.
  intros HN Hreach. induction Hreach as [|st Hreach IH Hlt].
  - by split.
  - pose proof (reachable_inv m index N window_size 1 scalar N_fits
                  (end0 m N) st HN (length_end0 m N) Hreach) as Hinv.
    pose proof Hinv as [Hwi Hsi Hei _ _ _ _ _ _].
    destruct IH as (Heq & Hstarts).
    destruct (body_positions m index N window_size 1 scalar N_fits st Hwi Hsi Hlt)
      as (Hk & _).
    destruct (body_cursors m index N window_size 1 scalar N_fits st
                ltac:(lia) Hlt) as (Hs' & _).
    rewrite unit_step in Hs' by lia.
    split; [lia|].
    rewrite (written_body m index N window_size 1 scalar (end0 m N) N_fits
               st Hinv Hlt).
    rewrite fmap_app, Hstarts, Hk. simpl.
    replace (window_i st + 1) with (Z.of_nat (S (Z.to_nat (window_i st)))) by lia.
    rewrite seqZ_S. rewrite Z2Nat.id by lia. f_equal. f_equal. lia.
Qed.

End UnitStep.

(** X8.  On an increasing index swept with [step_size = 1] (the default) the
    windows start at consecutive positions 0, 1, 2, ...; with
    [min_periods <= 1] these are, adjusted, the starts returned. *)
Theorem unit_step_starts_are_consecutive m N window_size step_size_obj min_periods_obj
    center closed index :
  well_typed N window_size step_size_obj min_periods_obj →
  Z.of_nat (length index) = N →
  is_strictly_ascending index = true → forallb Int64.fits index = true →
  default 1 step_size_obj = 1 →
  ∃ st, swept m N window_size step_size_obj index = Ok st ∧
    (written st).*1 = seqZ 0 (window_i st) ∧
    (default 0 min_periods_obj ≤ 1 →
     calculate_variable_window_bounds m N window_size step_size_obj
       min_periods_obj center closed index =
     Ok (adjust_start (left_open_of closed) <$> seqZ 0 (window_i st),
         adjust_end (right_open_of closed) <$> (written st).*2)).
Proof.
  intros Hty Hlen Hasc Hfits Hstep.
  pose proof (proj1 (fits_spec N) (proj1 Hty)) as HNr.
  destruct (calculate_reached m N window_size step_size_obj min_periods_obj
              center closed index Hty ltac:(lia))
    as (st & Hst & Hreach & _ & (_ & Hall & _) & _ & Hcall).
  exists st. split; [done|]. rewrite Hstep in Hreach.
  destruct (reachable_unit_step m index N window_size Hlen ltac:(lia) Hasc Hfits
              st ltac:(lia) Hreach) as (_ & Hstarts).
  split; [done|]. intros Hmp.
  rewrite Hcall, filter_all; [by rewrite Hstarts|].
  eapply Forall_impl; [exact Hall|]. cbv beta. intros [s e] (? & ? & ? & ?).
  unfold slot_valid. simpl in *. rewrite !andb_true_iff, !Z.leb_le. lia.
Qed.

Lemma unit_step_starts_are_consecutive_on_gap :
  (well_typed 3 2 None None ∧ Z.of_nat (length [0; 1; 100]) = 3 ∧
   is_strictly_ascending [0; 1; 100] = true ∧
   forallb Int64.fits [0; 1; 100] = true ∧ default 1 None = 1) ∧
  ∃ st, swept zero_memory 3 2 None [0; 1; 100] = Ok st ∧
        (written st).*1 = seqZ 0 (window_i st).
Proof.
  split; [repeat split; reflexivity|].
  destruct (unit_step_starts_are_consecutive zero_memory 3 2 None None None None
              [0; 1; 100]) as (st & Hst & Hstarts & _).
  - repeat split; reflexivity.
  - reflexivity.
  - reflexivity.
  - reflexivity.
  - reflexivity.
  - exists st. split; [exact Hst | exact Hstarts].
Defined.

(** ** Filtering twice *)

(** X9.  With [closed = 'both'] (no boundary is moved) the pair returned is a
    fixed point of the validity filter: filtering it again with the same
    [min_periods] gives it back. *)
Theorem filter_is_idempotent m N window_size step_size_obj min_periods_obj center index :
  well_typed N window_size step_size_obj min_periods_obj → 0 ≤ N →
  ∃ out_start out_end,
    calculate_variable_window_bounds m N window_size step_size_obj
      min_periods_obj center (Some "both"%string) index = Ok (out_start, out_end) ∧
    select_windows out_start out_end (default 0 min_periods_obj) false false
    = (out_start, out_end).
Proof.
  intros Hty HN.
  pose proof (proj1 (fits_spec N) (proj1 Hty)) as HNr.
  destruct (calculate_returns m N window_size step_size_obj min_periods_obj
              center (Some "both"%string) index Hty HN) as (st & _ & Hinv & _ & Hcall).
  set (kept := List.filter (slot_valid (default 0 min_periods_obj)) (written st)) in *.
  exists kept.*1, kept.*2. split.
  - rewrite Hcall. change (left_open_of (Some "both"%string)) with false.
    change (right_open_of (Some "both"%string)) with false.
    unfold adjust_start, adjust_end. by rewrite !list_fmap_id.
  - assert (Hkept : Forall (λ slot, slot_valid (default 0 min_periods_obj) slot = true ∧
                                     (0 ≤ slot.1 < N ∧ 0 ≤ slot.2 < N)) kept).
    { apply Forall_forall. intros slot Hin.
      apply list_elem_of_In, filter_In in Hin as [Hin Hv]. split; [done|].
      apply (written_positions N (end0 m N) st); [done | by apply list_elem_of_In]. }
    pose proof (select_windows_written N kept.*1 kept.*2 0 []
                  (default 0 min_periods_obj) false false ltac:(lia)) as Hsel.
    simpl in Hsel. rewrite !app_nil_r in Hsel. rewrite Hsel.
    + rewrite zip_fst_snd, filter_all.
      * unfold adjust_start, adjust_end. by rewrite !list_fmap_id.
      * eapply Forall_impl; [exact Hkept|]. by intros slot [? _].
    + apply Forall_fmap. eapply Forall_impl; [exact Hkept|]. by intros slot (_ & ? & _).
    + apply Forall_fmap. eapply Forall_impl; [exact Hkept|]. by intros slot (_ & _ & ?).
    + by rewrite !length_fmap.
Qed.

Lemma filter_is_idempotent_min_periods_3 :
  (well_typed 5 3 None (Some 3) ∧ 0 ≤ 5) ∧
  ∃ out_start out_end,
    calculate_variable_window_bounds zero_memory 5 3 None (Some 3) None
      (Some "both"%string) [0; 1; 2; 3; 4] = Ok (out_start, out_end) ∧
    select_windows out_start out_end 3 false false = (out_start, out_end).
Proof.
  split; [split; [repeat split; reflexivity | lia]|].
  apply (filter_is_idempotent zero_memory 5 3 None (Some 3) None [0; 1; 2; 3; 4]).
  - repeat split; reflexivity.
  - lia.
Defined.
